(** * camera_chain_sensor: a camera sensor attached to a kinematic chain

    Shallow embedding of
    [pr2_calibration_estimation/sensors/camera_chain_sensor.py]
    ([CameraChainBundler] and [CameraChainSensor]) and the properties of its
    residual, covariance, sparsity and bundling code.

    Conventions of the embedding:
    - numpy scalars are an abstract type [R] with the operations of the
      [Scalar] interface; rounding is not modelled, and the algebraic laws a
      proof needs are stated as hypotheses of that proof;
    - a numpy matrix is its shape together with its rows; operations that
      numpy rejects on a shape mismatch return [Err ValueError];
    - Python list objects that are shared and mutated (the joint positions)
      live in a store, and the methods run in a state-and-exception monad;
    - the collaborators that are not part of this file (forward kinematics,
      projection, matrix inversion) are injected functions. *)

From Stdlib Require Import ZArith.
From stdpp Require Import base decidable option list strings gmap.

(** ** Exceptions and fallible results *)

Inductive exn :=
  | AssertionError
  | ValueError
  | IndexError
  | KeyError
  | AttributeError
  | ExternalError   (* raised inside a collaborator: fk, project, inverse *)
  | BadReference.   (* a location outside the store; no Python state has one *)

Inductive result (A : Type) :=
  | Ok (a : A)
  | Err (e : exn).
Arguments Ok {A} a.
Arguments Err {A} e.

#[global] Instance exn_eq_dec : EqDecision exn.
Proof. solve_decision. Defined.

#[global] Instance result_ret : MRet result := @Ok.
#[global] Instance result_bind : MBind result := λ A B f r,
  match r with
  | Ok a => f a
  | Err e => Err e
  end.

(** Python's [assert c]. *)
Definition assert_ (c : bool) : result unit :=
  if c then Ok () else Err AssertionError.

(** [l.index(x)]: position of the first occurrence, [ValueError] when absent. *)
Definition index {A} `{EqDecision A} (x : A) (l : list A) : result nat :=
  match list_find (λ y, y = x) l with
  | Some (i, _) => Ok i
  | None => Err ValueError
  end.

(** [l[i]] on a list. *)
Definition getitem {A} (l : list A) (i : nat) : result A :=
  match l !! i with
  | Some a => Ok a
  | None => Err IndexError
  end.

(** Access to an attribute that is only set by [update_config]. *)
Definition attr {A} (o : option A) : result A :=
  match o with
  | Some a => Ok a
  | None => Err AttributeError
  end.

(** ** Scalars *)

Class Scalar (R : Type) := {
  rzero : R;
  rone : R;
  radd : R → R → R;
  rmul : R → R → R;
  rsub : R → R → R;
  ropp : R → R;
  rdiv : R → R → R;
  lit_1e_8 : R         (* the literal 1e-8 *)
}.

(** ** numpy arrays *)

Section Numpy.
Context {R : Type} `{Scalar R}.

(** A two-dimensional array or [numpy.matrix]: shape [(nrows, ncols)]. The
    column count is stored because it is not recoverable from an array
    with no rows. *)
Record matrix := Matrix { ncols : nat; rows : list (list R) }.

Definition nrows (m : matrix) : nat := length (rows m).

Definition wf (m : matrix) : Prop :=
  Forall (λ r, length r = ncols m) (rows m).

Definition entry (m : matrix) (i j : nat) : option R :=
  r ← rows m !! i; r !! j.

(** [numpy.matrix(l)] for a rectangular list of lists. The empty list
    gives a matrix of shape (1, 0), as numpy promotes the one-dimensional
    empty array to a row. *)
Definition np_matrix (l : list (list R)) : matrix :=
  match l with
  | [] => Matrix 0 [[]]
  | r :: _ => Matrix (length r) l
  end.

(** [numpy.zeros([r, c])] *)
Definition zeros (r c : nat) : matrix :=
  Matrix c (replicate r (replicate c rzero)).

Definition column (j : nat) (m : matrix) : list R :=
  (λ r, default rzero (r !! j)) <$> rows m.

(** [m.T] *)
Definition transpose (m : matrix) : matrix :=
  Matrix (nrows m) ((λ j, column j m) <$> seq 0 (ncols m)).

Definition dot (u v : list R) : R :=
  foldl radd rzero (zip_with rmul u v).

(** [a * b] on [numpy.matrix]: the matrix product. *)
Definition mmul (a b : matrix) : result matrix :=
  if decide (ncols a = nrows b)
  then Ok (Matrix (ncols b)
             ((λ r, (λ j, dot r (column j b)) <$> seq 0 (ncols b))
                <$> rows a))
  else Err ValueError.

(** Broadcasting of one dimension: equal extents, or one of them is 1. *)
Definition broadcast_dim (a b : nat) : result nat :=
  if decide (a = b) then Ok a
  else if decide (a = 1) then Ok b
  else if decide (b = 1) then Ok a
  else Err ValueError.

Definition stretch {A} (n : nat) (l : list A) : list A :=
  match l with
  | [a] => replicate n a
  | _ => l
  end.

(** Elementwise binary operation on one-dimensional arrays. *)
Definition ewise1 (f : R → R → R) (u v : list R) : result (list R) :=
  n ← broadcast_dim (length u) (length v);
  Ok (zip_with f (stretch n u) (stretch n v)).

(** Elementwise binary operation on matrices ([a - b], [a + b]). *)
Definition ewise2 (f : R → R → R) (a b : matrix) : result matrix :=
  r ← broadcast_dim (nrows a) (nrows b);
  c ← broadcast_dim (ncols a) (ncols b);
  Ok (Matrix c
        (zip_with (λ u v, zip_with f (stretch c u) (stretch c v))
                  (stretch r (rows a)) (stretch r (rows b)))).

(** [reshape(m, [-1, 1])]: one column, row-major order. *)
Definition reshape_column (m : matrix) : matrix :=
  Matrix 1 ((λ a, [a]) <$> concat (rows m)).

(** [reshape(array(m), [-1])]: the one-dimensional array, row-major. *)
Definition reshape_flat (m : matrix) : list R := concat (rows m).

(** [Jt[i] = v] for a two-dimensional [Jt] and one-dimensional [v]. *)
Definition set_row (m : matrix) (i : nat) (v : list R) : result matrix :=
  if decide (i < nrows m) then
    if decide (length v = ncols m) then
      Ok (Matrix (ncols m) (<[i := v]> (rows m)))
    else if decide (length v = 1) then
      Ok (Matrix (ncols m) (<[i := stretch (ncols m) v]> (rows m)))
    else Err ValueError
  else Err IndexError.

(** [m[i, j] = a] *)
Definition set_entry (m : matrix) (i j : nat) (a : R) : result matrix :=
  match rows m !! i with
  | Some r =>
      if decide (j < ncols m)
      then Ok (Matrix (ncols m) (<[i := <[j := a]> r]> (rows m)))
      else Err IndexError
  | None => Err IndexError
  end.

(** Arrays of one or two dimensions, for the functions that dispatch on
    the number of dimensions. *)
Inductive ndarray :=
  | Array1 (v : list R)
  | Array2 (m : matrix).

(** [numpy.diag]: a one-dimensional argument is placed on the diagonal of
    a square array; of a two-dimensional argument the diagonal is
    extracted. *)
Definition diag (a : ndarray) : ndarray :=
  match a with
  | Array1 v =>
      Array2 (Matrix (length v)
                (imap (λ i a, <[i := a]> (replicate (length v) rzero)) v))
  | Array2 m =>
      Array1 (omap (λ i, entry m i i) (seq 0 (min (nrows m) (ncols m))))
  end.

(** [numpy.matrix(a)] for an array: one dimension becomes a single row. *)
Definition as_matrix (a : ndarray) : matrix :=
  match a with
  | Array1 v => Matrix (length v) [v]
  | Array2 m => m
  end.

End Numpy.

Arguments matrix R : clear implicits.
Arguments ndarray R : clear implicits.

(** [m.I], the matrix inverse, is numpy's; it is an injected operation. *)
Class Inverse (R : Type) := inverse : matrix R → result (matrix R).

(** ** The store of list objects and the method monad *)

(** Locations of list objects in the store. *)
Abbreviation loc := nat.

(** The Python list objects holding joint positions, by location. *)
Abbreviation store R := (list (list R)).

Section Store.
Context {R : Type}.

(** A method body: reads and updates the store, returns or raises. The
    store survives an exception, as Python's heap does. *)
Definition M (A : Type) : Type := store R → store R * result A.

#[global] Instance M_ret : MRet M := λ A a h, (h, Ok a).
#[global] Instance M_bind : MBind M := λ A B f m h,
  match m h with
  | (h', Ok a) => f a h'
  | (h', Err e) => (h', Err e)
  end.

Definition lift {A} (r : result A) : M A := λ h, (h, r).

(** Reading the list object at a location. *)
Definition load (l : loc) : M (list R) := λ h,
  match h !! l with
  | Some v => (h, Ok v)
  | None => (h, Err BadReference)
  end.

(** [v[:]]: a new list object with the same elements. *)
Definition slice_copy (l : loc) : M loc := λ h,
  match h !! l with
  | Some v => (h ++ [v], Ok (length h))
  | None => (h, Err BadReference)
  end.

(** [v[i] = f(v[i])] on the list object at [l], as done by [v[i] += d]. *)
Definition update_item (l : loc) (i : nat) (f : R → R) : M unit := λ h,
  match h !! l with
  | Some v =>
      match v !! i with
      | Some a => (<[l := <[i := f a]> v]> h, Ok ())
      | None => (h, Err IndexError)
      end
  | None => (h, Err BadReference)
  end.

End Store.

Arguments M R A : clear implicits.

(** ** Data model: configuration, measurements, resolved parameters *)

Section DataModel.
Context {R : Type}.

(** [config["chain"]]: the keys [chain_id], [before_chain], [after_chain]. *)
Record ChainConfig := {
  cfg_chain_id : string;
  cfg_before_chain : list string;
  cfg_after_chain : list string
}.

(** An entry of the valid-config catalog: keys [camera_id] and [chain]. *)
Record Config := {
  cfg_camera_id : string;
  cfg_chain : ChainConfig
}.

Record Point := { pt_x : R; pt_y : R }.

Record CameraInfo := { P : matrix R }.

Record CameraMeasurement := {
  camera_id : string;
  image_points : list Point;
  cam_info : CameraInfo
}.

(** [sensor_msgs/JointState]; [position] refers to a list object. *)
Record JointState := { position : loc }.

Record ChainMeasurement := {
  chain_id : string;
  chain_state : JointState
}.

Record RobotMeasurement := {
  M_cam : list CameraMeasurement;
  M_chain : list ChainMeasurement
}.

(** The rectified camera resolved by [update_config]: its noise
    variances [_cov_dict['u']], [_cov_dict['v']] and its projection. *)
Record RectifiedCamera := {
  cov_u : R;
  cov_v : R;
  project : matrix R → matrix R → result (matrix R)
}.

(** [self._chain.calc_block] after [update_config]: the forward
    kinematics [fk] as a function of the joint positions, and of its DH
    chain [_chain] the link count [_M] and [_cov_dict['joint_angles']]. *)
Record CalcBlock := {
  fk : list R → result (matrix R);
  dh_M : nat;
  cov_joint_angles : list R
}.

Record RobotParams := {
  rectified_cams : gmap string RectifiedCamera;
  resolve_chain : ChainConfig → result CalcBlock
}.

Record CameraChainSensor := {
  sensor_type : string;
  sensor_id : string;
  _config_dict : Config;
  _M_cam : CameraMeasurement;
  _M_chain : ChainMeasurement;
  _camera : option RectifiedCamera;
  _calc_block : option CalcBlock
}.

(** [CameraChainSensor.__init__] *)
Definition CameraChainSensor_init (config_dict : Config)
    (M_cam : CameraMeasurement) (M_chain : ChainMeasurement)
    : CameraChainSensor :=
  {| sensor_type := "camera";
     sensor_id := cfg_camera_id config_dict;
     _config_dict := config_dict;
     _M_cam := M_cam;
     _M_chain := M_chain;
     _camera := None;
     _calc_block := None |}.

(** [update_config]: the camera is looked up by the config's camera id,
    the chain accessor is resolved from the same parameters. *)
Definition update_config (self : CameraChainSensor) (robot_params : RobotParams)
    : result CameraChainSensor :=
  cam ← match rectified_cams robot_params !! cfg_camera_id (_config_dict self) with
        | Some c => Ok c
        | None => Err KeyError
        end;
  blk ← resolve_chain robot_params (cfg_chain (_config_dict self));
  Ok {| sensor_type := sensor_type self;
        sensor_id := sensor_id self;
        _config_dict := _config_dict self;
        _M_cam := _M_cam self;
        _M_chain := _M_chain self;
        _camera := Some cam;
        _calc_block := Some blk |}.

(** ** CameraChainBundler.build_blocks *)

(** The loop over [self._valid_configs], with the list [sensors] built so far. *)
Fixpoint build_blocks_loop (valid_configs : list Config)
    (M_robot : RobotMeasurement) (sensors : list CameraChainSensor)
    : result (list CameraChainSensor) :=
  match valid_configs with
  | [] => Ok sensors
  | cur_config :: rest =>
      if bool_decide (cfg_camera_id cur_config ∈ camera_id <$> M_cam M_robot)
         && bool_decide (cfg_chain_id (cfg_chain cur_config)
                           ∈ chain_id <$> M_chain M_robot)
      then
        i ← index (cfg_camera_id cur_config) (camera_id <$> M_cam M_robot);
        m_cam ← getitem (M_cam M_robot) i;
        j ← index (cfg_chain_id (cfg_chain cur_config))
                  (chain_id <$> M_chain M_robot);
        m_chain ← getitem (M_chain M_robot) j;
        let cur_sensor := CameraChainSensor_init cur_config m_cam m_chain in
        build_blocks_loop rest M_robot (sensors ++ [cur_sensor])
      else
        build_blocks_loop rest M_robot sensors
  end.

Definition build_blocks (valid_configs : list Config) (M_robot : RobotMeasurement)
    : result (list CameraChainSensor) :=
  build_blocks_loop valid_configs M_robot [].

End DataModel.

Arguments Point R : clear implicits.
Arguments CameraInfo R : clear implicits.
Arguments CameraMeasurement R : clear implicits.
Arguments RobotMeasurement R : clear implicits.
Arguments RectifiedCamera R : clear implicits.
Arguments CalcBlock R : clear implicits.
Arguments RobotParams R : clear implicits.
Arguments CameraChainSensor R : clear implicits.

(** ** CameraChainSensor: residual, expected measurement, covariance *)

(** The sparsity description: the dictionary with the three keys
    ['transforms'], ['dh_chains'] and ['rectified_cameras']. *)
Record Sparsity := {
  sp_transforms : gmap string (list Z);
  sp_dh_chains : gmap string (list (list Z));
  sp_rectified_cameras : gmap string (gmap string Z)
}.

Section Sensor.
Context {R : Type} `{Scalar R, Inverse R}.

Implicit Types (self : CameraChainSensor R) (target_pts : matrix R).

Definition get_residual_length self : nat :=
  let N := length (image_points (_M_cam self)) in
  N * 2.

(** The observed measurement in an Nx2 matrix. *)
Definition get_measurement self : matrix R :=
  let camera_pix :=
    np_matrix ((λ pt, [pt_x pt; pt_y pt]) <$> image_points (_M_cam self)) in
  camera_pix.

Definition _compute_expected self (chain_state : JointState) target_pts
    : M R (matrix R) :=
  (* Camera pose in root frame *)
  blk ← lift (attr (_calc_block self));
  q ← load (position chain_state);
  camera_pose_root ← lift (fk blk q);
  pose_I ← lift (inverse camera_pose_root);
  cam_frame_pts ← lift (mmul pose_I target_pts);
  (* Do the camera projection *)
  cam ← lift (attr (_camera self));
  pixel_pts ← lift (project cam (P (cam_info (_M_cam self))) cam_frame_pts);
  mret (transpose pixel_pts).

Definition compute_expected self target_pts : M R (matrix R) :=
  _compute_expected self (chain_state (_M_chain self)) target_pts.

(** The three assertions of [compute_residual]. *)
Definition residual_asserts (z_mat h_mat : matrix R) : result unit :=
  assert_ (bool_decide (ncols z_mat = 2));;
  assert_ (bool_decide (ncols h_mat = 2));;
  assert_ (bool_decide (nrows z_mat = nrows z_mat)).

Definition compute_residual self target_pts : M R (list R) :=
  let z_mat := get_measurement self in
  h_mat ← compute_expected self target_pts;
  lift (residual_asserts z_mat h_mat);;
  d ← lift (ewise2 rsub h_mat z_mat);
  let r := column 0 (reshape_column d) in
  mret r.

(** The body of [for i in range(num_joints)], over the remaining indices. *)
Fixpoint jacobian_loop self target_pts (epsilon : R) (f0 : list R)
    (range : list nat) (Jt : matrix R) : M R (matrix R) :=
  match range with
  | [] => mret Jt
  | i :: range' =>
      p ← slice_copy (position (chain_state (_M_chain self)));
      let x := {| position := p |} in
      update_item (position x) i (λ a, radd a epsilon);;
      e ← _compute_expected self x target_pts;
      let fTest := reshape_flat e in
      d ← lift (ewise1 rsub fTest f0);
      Jt' ← lift (set_row Jt i ((λ a, rdiv a epsilon) <$> d));
      jacobian_loop self target_pts epsilon f0 range' Jt'
  end.

(** The body of [for k in range(cam_cov.shape[0]/2)]. *)
Fixpoint cam_cov_loop (u v : R) (range : list nat) (cam_cov : matrix R)
    : result (matrix R) :=
  match range with
  | [] => Ok cam_cov
  | k :: range' =>
      c1 ← set_entry cam_cov (2 * k) (2 * k) u;
      c2 ← set_entry c1 (2 * k + 1) (2 * k + 1) v;
      cam_cov_loop u v range' c2
  end.

Definition compute_cov self target_pts : M R (matrix R) :=
  let epsilon := lit_1e_8 in
  q ← load (position (chain_state (_M_chain self)));
  let num_joints := length q in
  let Jt := zeros num_joints (get_residual_length self) in
  p ← slice_copy (position (chain_state (_M_chain self)));
  let x := {| position := p |} in
  e0 ← _compute_expected self x target_pts;
  let f0 := reshape_flat e0 in
  Jt ← jacobian_loop self target_pts epsilon f0 (seq 0 num_joints) Jt;
  blk ← lift (attr (_calc_block self));
  let cov_angles := diag (Array1 (cov_joint_angles blk)) in
  t ← lift (mmul (transpose Jt) (as_matrix (diag cov_angles)));
  chain_cov ← lift (mmul t Jt);
  let cam_cov := zeros (nrows chain_cov) (ncols chain_cov) in
  cam ← lift (attr (_camera self));
  cam_cov ← lift (cam_cov_loop (cov_u cam) (cov_v cam)
                    (seq 0 (nrows cam_cov / 2)) cam_cov);
  cov ← lift (ewise2 radd chain_cov cam_cov);
  mret cov.

(** A dictionary that defines which parameters affect this measurement. *)
Definition build_sparsity_dict self : M R Sparsity :=
  let transforms :=
    foldl (λ d cur_transform_name, <[cur_transform_name := [1; 1; 1; 1; 1; 1]%Z]> d)
          ∅ (cfg_before_chain (cfg_chain (_config_dict self))
               ++ cfg_after_chain (cfg_chain (_config_dict self))) in
  let chain_id := cfg_chain_id (cfg_chain (_config_dict self)) in
  blk ← lift (attr (_calc_block self));
  let num_links := dh_M blk in
  q ← load (position (chain_state (_M_chain self)));
  lift (assert_ (bool_decide (num_links = length q)));;
  let dh_chains := <[chain_id := replicate num_links [1; 1; 1; 1]%Z]> ∅ in
  let rectified_cameras :=
    <[sensor_id self := <["baseline_shift" := 1%Z]> ∅]> ∅ in
  mret {| sp_transforms := transforms;
          sp_dh_chains := dh_chains;
          sp_rectified_cameras := rectified_cameras |}.

End Sensor.

(** ** Vocabulary of the statements *)

Section Vocabulary.
Context {R : Type}.

(** A catalog entry matches a measurement when both of its ids occur. *)
Definition matches (M_robot : RobotMeasurement R) (c : Config) : Prop :=
  cfg_camera_id c ∈ camera_id <$> M_cam M_robot
  ∧ cfg_chain_id (cfg_chain c) ∈ chain_id <$> M_chain M_robot.

#[global] Instance matches_dec M_robot c : Decision (matches M_robot c).
Proof. unfold matches. apply _. Defined.

(** What [__init__] binds for a catalog entry: the entry itself, its
    camera id as sensor id, and observations carrying the entry's ids. *)
Definition bound_to (M_robot : RobotMeasurement R) (s : CameraChainSensor R) : Prop :=
  sensor_id s = cfg_camera_id (_config_dict s)
  ∧ camera_id (_M_cam s) = cfg_camera_id (_config_dict s)
  ∧ chain_id (_M_chain s) = cfg_chain_id (cfg_chain (_config_dict s))
  ∧ _M_cam s ∈ M_cam M_robot
  ∧ _M_chain s ∈ M_chain M_robot.

(** [keeps n m]: running [m] leaves the first [n] objects of the store as
    they are, whether [m] returns or raises. *)
Definition keeps (n : nat) {A} (m : M R A) : Prop :=
  ∀ h, n ≤ length h → n ≤ length (m h).1 ∧ take n (m h).1 = take n h.

(** [a] is the first element of [l] whose key is [id]. *)
Definition first_with {A} (key : A → string) (l : list A) (id : string) (a : A)
    : Prop :=
  ∃ i, l !! i = Some a ∧ key a = id
       ∧ ∀ j o, l !! j = Some o → j < i → key o ≠ id.

(** A matrix equal to its transpose, entry by entry. *)
Definition symmetric (m : matrix R) : Prop := ∀ i j, entry m i j = entry m j i.

End Vocabulary.

Section SensorVocabulary.
Context {R : Type} `{Scalar R, Inverse R}.

(** The expected pixels as a function of the joint positions [q]: what
    [_compute_expected] computes from the list object it is given. *)
Definition expected_pixels (self : CameraChainSensor R) (q : list R)
    (target_pts : matrix R) : result (matrix R) :=
  blk ← attr (_calc_block self);
  camera_pose_root ← fk blk q;
  pose_I ← inverse camera_pose_root;
  cam_frame_pts ← mmul pose_I target_pts;
  cam ← attr (_camera self);
  pixel_pts ← project cam (P (cam_info (_M_cam self))) cam_frame_pts;
  Ok (transpose pixel_pts).

(** A row of the transposed Jacobian: the forward difference of the
    flattened expected pixels [fTest] against the baseline [f0], divided by
    the step, as it is stored in a row of [n] entries. *)
Definition difference_row (epsilon : R) (n : nat) (fTest f0 : list R)
    : result (list R) :=
  d ← ewise1 rsub fTest f0;
  Ok (stretch n ((λ a, rdiv a epsilon) <$> d)).

(** [Jt] is the transposed forward-difference Jacobian of the expected
    pixels at the positions [q]: row [i] is the difference row obtained by
    moving joint [i] alone by the step 1e-8. *)
Definition is_jacobian_t (self : CameraChainSensor R) (target_pts : matrix R)
    (q : list R) (Jt : matrix R) : Prop :=
  ∃ e0,
    expected_pixels self q target_pts = Ok e0
    ∧ ∀ i, i < length q →
        ∃ x e row,
          q !! i = Some x
          ∧ expected_pixels self (<[i := radd x lit_1e_8]> q) target_pts = Ok e
          ∧ difference_row lit_1e_8 (get_residual_length self)
              (reshape_flat e) (reshape_flat e0) = Ok row
          ∧ rows Jt !! i = Some row.

(** The camera-noise covariance: [u] and [v] alternating on the diagonal. *)
Definition cam_noise (u v : R) (i j : nat) : R :=
  if decide (i = j) then if Nat.even i then u else v else rzero.

End SensorVocabulary.

(** ** A concrete instance over the integers

    Integer scalars (the finite-difference step is one unit) with simple
    collaborators: a one-axis sliding chain, the inverse of a slide, and an
    orthographic projection. They are used to run the definitions. *)

#[global] Instance Z_scalar : Scalar Z := {|
  rzero := 0%Z; rone := 1%Z;
  radd := Z.add; rmul := Z.mul; rsub := Z.sub; ropp := Z.opp; rdiv := Z.div;
  lit_1e_8 := 1%Z
|}.

#[global] Instance matrix_eq_dec {R} `{EqDecision R} : EqDecision (matrix R).
Proof. solve_decision. Defined.

(** The pose that translates by [t] along the first axis. *)
Definition slide (t : Z) : matrix Z :=
  Matrix 4 [[1; 0; 0; t]; [0; 1; 0; 0]; [0; 0; 1; 0]; [0; 0; 0; 1]]%Z.

#[global] Instance Z_inverse : Inverse Z := λ m,
  match entry m 0 3 with
  | Some t => if decide (m = slide t) then Ok (slide (- t)) else Err ExternalError
  | None => Err ExternalError
  end.

(** Forward kinematics of the sliding chain: the joints add up. *)
Definition slide_fk (q : list Z) : result (matrix Z) :=
  Ok (slide (foldr Z.add 0%Z q)).

(** The first two rows of [P * pts]. *)
Definition ortho_project (P pts : matrix Z) : result (matrix Z) :=
  m ← mmul P pts;
  Ok (Matrix (ncols m) (take 2 (rows m))).

Definition ortho_P : matrix Z :=
  Matrix 4 [[1; 0; 0; 0]; [0; 1; 0; 0]; [0; 0; 1; 0]]%Z.

Definition demo_camera (u v : Z) : RectifiedCamera Z :=
  {| cov_u := u; cov_v := v; project := ortho_project |}.

Definition demo_block (links : nat) (variances : list Z) : CalcBlock Z :=
  {| fk := slide_fk; dh_M := links; cov_joint_angles := variances |}.

Definition demo_config : Config :=
  {| cfg_camera_id := "cam1";
     cfg_chain := {| cfg_chain_id := "armL";
                     cfg_before_chain := ["mount"];
                     cfg_after_chain := [] |} |}.

(** A sensor on [demo_config] observing the given pixels, whose joint
    positions are the list object at location 0, resolved against a chain
    with the given link count and variances. *)
Definition demo_sensor (pixels : list (Z * Z)) (links : nat) (variances : list Z)
    : CameraChainSensor Z :=
  {| sensor_type := "camera";
     sensor_id := "cam1";
     _config_dict := demo_config;
     _M_cam := {| camera_id := "cam1";
                  image_points := (λ p, {| pt_x := p.1; pt_y := p.2 |}) <$> pixels;
                  cam_info := {| P := ortho_P |} |};
     _M_chain := {| chain_id := "armL"; chain_state := {| position := 0 |} |};
     _camera := Some (demo_camera 4 9);
     _calc_block := Some (demo_block links variances) |}.

(** Target points as a 4xN matrix in homogeneous coordinates. *)
Definition demo_target (pts : list (Z * Z)) : matrix Z :=
  Matrix (length pts)
    [ fst <$> pts; snd <$> pts; (λ _, 0%Z) <$> pts; (λ _, 1%Z) <$> pts ].

(** A measurement with two camera observations named [cam1]. *)
Definition demo_measurement : RobotMeasurement Z :=
  {| M_cam := [ _M_cam (demo_sensor [(5, 7)%Z] 1 [3%Z]);
                _M_cam (demo_sensor [(0, 0)%Z] 1 [3%Z]) ];
     M_chain := [ _M_chain (demo_sensor [(5, 7)%Z] 1 [3%Z]) ] |}.

(** * Properties *)

(** ** Reasoning about the monads *)

Lemma result_bind_Ok {A B} (r : result A) (f : A → result B) b :
  r ≫= f = Ok b → ∃ a, r = Ok a ∧ f a = Ok b.
Proof. destruct r as [a|e]; simpl; [eauto | discriminate]. Qed.

Lemma assert_Ok c : assert_ c = Ok () ↔ c = true.
Proof. destruct c; simpl; split; congruence. Qed.

Lemma assert_Err c e : assert_ c = Err e → c = false ∧ e = AssertionError.
Proof. destruct c; simpl; [discriminate | intros [= <-]; auto]. Qed.

Section MonadFacts.
Context {R : Type}.

Lemma M_bind_run {A B} (m : M R A) (f : A → M R B) h :
  (m ≫= f) h =
    match m h with
    | (h', Ok a) => f a h'
    | (h', Err e) => (h', Err e)
    end.
Proof. reflexivity. Qed.

Lemma M_bind_Ok {A B} (m : M R A) (f : A → M R B) h h2 b :
  (m ≫= f) h = (h2, Ok b) →
  ∃ a h1, m h = (h1, Ok a) ∧ f a h1 = (h2, Ok b).
Proof.
  rewrite M_bind_run. destruct (m h) as [h1 [a|e]]; [eauto | discriminate].
Qed.

Lemma lift_run {A} (r : result A) (h : store R) : lift r h = (h, r).
Proof. reflexivity. Qed.

Lemma load_run l (h : store R) v : h !! l = Some v → load l h = (h, Ok v).
Proof. unfold load. intros ->. reflexivity. Qed.

End MonadFacts.

(** ** CameraChainBundler.build_blocks *)

Section Bundler.
Context {R : Type}.

Lemma index_getitem {A} (f : A → string) (x : string) (l : list A) :
  x ∈ f <$> l →
  ∃ i a, index x (f <$> l) = Ok i ∧ getitem l i = Ok a ∧ f a = x ∧ a ∈ l.
Proof.
  intros Hin. unfold index, getitem.
  destruct (list_find_elem_of (λ y, y = x) (f <$> l) x Hin eq_refl) as [[i y] Hf].
  rewrite Hf. apply list_find_Some in Hf as (Hl & -> & _).
  rewrite list_lookup_fmap in Hl.
  destruct (l !! i) as [a|] eqn:Ha; simplify_eq/=.
  exists i, a. rewrite Ha. split_and!; auto. by eapply list_elem_of_lookup_2.
Qed.

Lemma build_blocks_loop_spec valid_configs (M_robot : RobotMeasurement R) acc :
  Forall (bound_to M_robot) acc →
  ∃ sensors,
    build_blocks_loop valid_configs M_robot acc = Ok sensors
    ∧ _config_dict <$> sensors
      = (_config_dict <$> acc) ++ filter (matches M_robot) valid_configs
    ∧ Forall (bound_to M_robot) sensors.
Proof.
  revert acc. induction valid_configs as [|c rest IH]; intros acc Hacc;
    cbn [build_blocks_loop].
  - exists acc. rewrite app_nil_r. auto.
  - destruct (decide (matches M_robot c)) as [Hm|Hm].
    + rewrite (filter_cons_True _ _ _ Hm). destruct Hm as [Hc Hch].
      rewrite !bool_decide_eq_true_2 by done. cbn [andb].
      destruct (index_getitem camera_id _ _ Hc) as (i & mc & -> & Hg & Hic & Hmc).
      cbn [mbind result_bind]. rewrite Hg.
      destruct (index_getitem chain_id _ _ Hch) as (j & mch & -> & Hg' & Hjc & Hmch).
      cbn [mbind result_bind]. rewrite Hg'. cbn [mbind result_bind]. cbv zeta.
      destruct (IH (acc ++ [CameraChainSensor_init c mc mch])) as (ss & -> & Hcfg & Hb).
      { apply Forall_app. split; [done|]. apply Forall_singleton.
        repeat split; simpl; auto. }
      exists ss. split; [done|]. split; [|done].
      rewrite Hcfg, fmap_app. simpl. by rewrite <- app_assoc.
    + rewrite (filter_cons_False _ _ _ Hm).
      assert (bool_decide (cfg_camera_id c ∈ camera_id <$> M_cam M_robot)
              && bool_decide (cfg_chain_id (cfg_chain c) ∈ chain_id <$> M_chain M_robot)
              = false) as ->.
      { apply not_true_is_false. intros [H1 H2]%andb_true_iff.
        apply bool_decide_eq_true in H1, H2. by apply Hm. }
      by apply IH.
Qed.

(** C3: [build_blocks] never fails and returns, in catalog order, exactly
    one sensor for each catalog entry whose camera id occurs among the
    camera observations and whose chain id occurs among the chain
    observations; every other entry contributes nothing. Each sensor is
    bound to observations of the measurement that carry its entry's ids. *)
Theorem build_blocks_matching valid_configs (M_robot : RobotMeasurement R) :
  ∃ sensors,
    build_blocks valid_configs M_robot = Ok sensors
    ∧ _config_dict <$> sensors = filter (matches M_robot) valid_configs
    ∧ Forall (bound_to M_robot) sensors.
Proof.
  destruct (build_blocks_loop_spec valid_configs M_robot []) as (ss & ? & ? & ?);
    [constructor|].
  exists ss. auto.
Qed.

End Bundler.

(** ** Facts about the array operations *)

Section NumpyFacts.
Context {R : Type} `{Scalar R}.

Implicit Types (m a b : matrix R) (u v : list R).

Lemma stretch_same {A} n (l : list A) : length l = n → stretch n l = l.
Proof. destruct l as [|x [|y l]]; simpl; intros <-; reflexivity. Qed.

Lemma stretch_length {A} n (l : list A) :
  length l = n ∨ length l = 1 → length (stretch n l) = n.
Proof.
  intros [Hl|Hl]; [by rewrite stretch_same|].
  destruct l as [|x [|y l]]; simplify_eq/=. apply length_replicate.
Qed.

Lemma broadcast_dim_same n : broadcast_dim n n = Ok n.
Proof. unfold broadcast_dim. by rewrite decide_True. Qed.

Lemma broadcast_dim_Ok (x y n : nat) :
  broadcast_dim x y = Ok n → (x = n ∨ x = 1) ∧ (y = n ∨ y = 1).
Proof. unfold broadcast_dim. repeat case_decide; intros [=]; subst; auto. Qed.

Lemma broadcast_dim_Err (x y : nat) e : broadcast_dim x y = Err e → e = ValueError.
Proof. unfold broadcast_dim. repeat case_decide; intros [=]; subst; auto. Qed.

Lemma zip_with_rows (f : R → R → R) c (l k : list (list R)) :
  Forall (λ r, length r = c) l → Forall (λ r, length r = c) k →
  zip_with (λ u v, zip_with f (stretch c u) (stretch c v)) l k
  = zip_with (zip_with f) l k.
Proof.
  intros Hl. revert k. induction Hl as [|u l Hu Hl IH]; intros k Hk; [done|].
  destruct Hk as [|v k Hv Hk]; [done|]. simpl.
  rewrite !stretch_same by done. f_equal. by apply IH.
Qed.

Lemma Forall_length_zip_with (f : R → R → R) c (l k : list (list R)) :
  Forall (λ r, length r = c) l → Forall (λ r, length r = c) k →
  Forall (λ r, length r = c) (zip_with (zip_with f) l k).
Proof.
  intros Hl. revert k. induction Hl as [|u l Hu Hl IH]; intros k Hk; [constructor|].
  destruct Hk as [|v k Hv Hk]; simpl; constructor; [|by apply IH].
  rewrite length_zip_with_l_eq; congruence.
Qed.

(** Elementwise operations on two well-formed matrices of one shape. *)
Lemma ewise2_same_shape f a b :
  wf a → wf b → nrows a = nrows b → ncols a = ncols b →
  ewise2 f a b = Ok (Matrix (ncols a) (zip_with (zip_with f) (rows a) (rows b))).
Proof.
  intros Ha Hb Hr Hc. unfold ewise2.
  rewrite <- Hr, <- Hc, !broadcast_dim_same. simpl.
  rewrite !stretch_same by (unfold nrows in *; congruence).
  rewrite zip_with_rows; [done|done|]. unfold wf in Hb. by rewrite Hc.
Qed.

Lemma ewise2_Err f a b e : ewise2 f a b = Err e → e = ValueError.
Proof.
  unfold ewise2.
  destruct (broadcast_dim (nrows a) (nrows b)) eqn:E1; simpl;
    [|intros [= <-]; by eapply broadcast_dim_Err].
  destruct (broadcast_dim (ncols a) (ncols b)) eqn:E2; simpl;
    [discriminate|intros [= <-]; by eapply broadcast_dim_Err].
Qed.

(** Column 0 of the one-column reshape is the row-major flattening. *)
Lemma column_reshape_column m : column 0 (reshape_column m) = reshape_flat m.
Proof.
  unfold column, reshape_column, reshape_flat. simpl.
  rewrite <- list_fmap_compose. apply list_fmap_id.
Qed.

Lemma np_matrix_pairs {A} (f g : A → R) (l : list A) :
  l ≠ [] →
  np_matrix ((λ x, [f x; g x]) <$> l) = Matrix 2 ((λ x, [f x; g x]) <$> l).
Proof. destruct l; [done|reflexivity]. Qed.

Lemma wf_pairs {A} (f g : A → R) (l : list A) :
  wf (Matrix 2 ((λ x, [f x; g x]) <$> l)).
Proof. unfold wf. simpl. apply Forall_fmap, Forall_true. done. Qed.

Lemma length_concat_rows c (l : list (list R)) :
  Forall (λ r, length r = c) l → length (concat l) = length l * c.
Proof. induction 1 as [|r l Hr _ IH]; simpl; [done|]. rewrite length_app. lia. Qed.

End NumpyFacts.

(** ** compute_residual *)

Section Residual.
Context {R : Type} `{Scalar R, Inverse R}.

Implicit Types (self : CameraChainSensor R) (target_pts : matrix R)
  (h : store R) (z_mat h_mat : matrix R).

(** Once the expected pixels are there, the rest of [compute_residual]
    does not touch the store. *)
Lemma compute_residual_run self target_pts h h' h_mat :
  compute_expected self target_pts h = (h', Ok h_mat) →
  compute_residual self target_pts h
  = (h', residual_asserts (get_measurement self) h_mat;;
         d ← ewise2 rsub h_mat (get_measurement self);
         Ok (reshape_flat d)).
Proof.
  intros He. unfold compute_residual. cbv zeta.
  rewrite M_bind_run, He, M_bind_run, lift_run.
  destruct (residual_asserts _ _) as [[]|e]; [|done].
  rewrite M_bind_run, lift_run. cbn [mbind result_bind].
  destruct (ewise2 _ _ _) as [d|e]; [|done].
  unfold mret, M_ret. by rewrite column_reshape_column.
Qed.

Lemma residual_asserts_Ok z_mat h_mat :
  residual_asserts z_mat h_mat = Ok () ↔ ncols z_mat = 2 ∧ ncols h_mat = 2.
Proof.
  unfold residual_asserts.
  rewrite (bool_decide_eq_true_2 (nrows z_mat = nrows z_mat)) by done.
  destruct (decide (ncols z_mat = 2)) as [Hz|Hz];
    [rewrite (bool_decide_eq_true_2 _ Hz)|rewrite (bool_decide_eq_false_2 _ Hz)];
    simpl; [|split; [discriminate|tauto]].
  destruct (decide (ncols h_mat = 2)) as [Hh|Hh];
    [rewrite (bool_decide_eq_true_2 _ Hh)|rewrite (bool_decide_eq_false_2 _ Hh)];
    simpl; [tauto|split; [discriminate|tauto]].
Qed.

Lemma residual_asserts_Err z_mat h_mat e :
  residual_asserts z_mat h_mat = Err e →
  e = AssertionError ∧ (ncols z_mat ≠ 2 ∨ ncols h_mat ≠ 2).
Proof.
  intros He. split.
  - unfold residual_asserts in He.
    rewrite (bool_decide_eq_true_2 (nrows z_mat = nrows z_mat)) in He by done.
    destruct (bool_decide (ncols z_mat = 2)); simpl in He; [|congruence].
    destruct (bool_decide (ncols h_mat = 2)); simpl in He; congruence.
  - destruct (decide (ncols z_mat = 2)); [|tauto].
    destruct (decide (ncols h_mat = 2)); [|tauto].
    assert (residual_asserts z_mat h_mat = Ok ()) by by apply residual_asserts_Ok.
    congruence.
Qed.

Lemma get_measurement_nonempty self :
  image_points (_M_cam self) ≠ [] →
  get_measurement self
  = Matrix 2 ((λ pt, [pt_x pt; pt_y pt]) <$> image_points (_M_cam self)).
Proof. intros Hne. unfold get_measurement. by rewrite np_matrix_pairs. Qed.

Lemma get_measurement_empty self :
  image_points (_M_cam self) = [] → get_measurement self = Matrix 0 [[]].
Proof. unfold get_measurement. by intros ->. Qed.

(** With at least one observed point and an expected matrix of the same
    shape N x 2, the residual is the difference of the two matrices, row
    by row, each row contributing its x component and then its y
    component; it has [get_residual_length] elements. *)
Lemma compute_residual_nonempty self target_pts h h' h_mat :
  image_points (_M_cam self) ≠ [] →
  compute_expected self target_pts h = (h', Ok h_mat) →
  wf h_mat → ncols h_mat = 2 →
  nrows h_mat = length (image_points (_M_cam self)) →
  ∃ r,
    compute_residual self target_pts h = (h', Ok r)
    ∧ r = concat (zip_with (zip_with rsub) (rows h_mat)
                           (rows (get_measurement self)))
    ∧ length r = get_residual_length self.
Proof.
  intros Hne He Hwf Hc Hr. rewrite (compute_residual_run _ _ _ _ _ He).
  rewrite get_measurement_nonempty by done.
  set (z := Matrix 2 _).
  assert (residual_asserts z h_mat = Ok ()) as -> by by apply residual_asserts_Ok.
  cbn [mbind result_bind].
  assert (wf z) as Hz by apply wf_pairs.
  assert (nrows h_mat = nrows z) as Hrz.
  { rewrite Hr. unfold nrows, z. simpl. by rewrite length_fmap. }
  rewrite ewise2_same_shape by done. cbn [mbind result_bind].
  eexists. split; [reflexivity|]. split; [reflexivity|].
  unfold reshape_flat. cbn [rows]. rewrite (length_concat_rows 2).
  - rewrite length_zip_with_l_eq by done. unfold get_residual_length.
    fold (nrows h_mat). by rewrite Hr.
  - unfold wf in Hwf, Hz. rewrite Hc in Hwf. by apply Forall_length_zip_with.
Qed.

(** C1: a camera observation with no image points makes
    [compute_residual] fail its first assertion: the observed matrix has
    shape (1, 0), not (0, 2), although [get_residual_length] is 0. *)
Theorem compute_residual_no_points self target_pts h h' h_mat :
  image_points (_M_cam self) = [] →
  compute_expected self target_pts h = (h', Ok h_mat) →
  get_residual_length self = 0
  ∧ compute_residual self target_pts h = (h', Err AssertionError).
Proof.
  intros Hnil He. split; [unfold get_residual_length; by rewrite Hnil|].
  rewrite (compute_residual_run _ _ _ _ _ He), get_measurement_empty by done.
  reflexivity.
Qed.

(** Past the assertions: with two columns on both sides the outcome is
    that of the subtraction and the flattening. *)
Lemma compute_residual_two_columns self target_pts h h' h_mat :
  compute_expected self target_pts h = (h', Ok h_mat) →
  ncols (get_measurement self) = 2 → ncols h_mat = 2 →
  residual_asserts (get_measurement self) h_mat = Ok ()
  ∧ compute_residual self target_pts h
    = (h', d ← ewise2 rsub h_mat (get_measurement self); Ok (reshape_flat d)).
Proof.
  intros He Hz Hh. rewrite (compute_residual_run _ _ _ _ _ He).
  assert (residual_asserts (get_measurement self) h_mat = Ok ()) as Ha
    by by apply residual_asserts_Ok.
  by rewrite Ha.
Qed.

(** C8: once the expected pixels are computed, [compute_residual] raises
    [AssertionError] exactly when the observed or the expected matrix
    does not have two columns; when both have two columns the three
    assertions pass and the outcome is that of the subtraction. *)
Theorem compute_residual_column_checks self target_pts h h' h_mat :
  compute_expected self target_pts h = (h', Ok h_mat) →
  (ncols (get_measurement self) ≠ 2 ∨ ncols h_mat ≠ 2 →
     compute_residual self target_pts h = (h', Err AssertionError))
  ∧ (ncols (get_measurement self) = 2 ∧ ncols h_mat = 2 →
     residual_asserts (get_measurement self) h_mat = Ok ()
     ∧ compute_residual self target_pts h
       = (h', d ← ewise2 rsub h_mat (get_measurement self); Ok (reshape_flat d))
     ∧ compute_residual self target_pts h ≠ (h', Err AssertionError)).
Proof.
  intros He. split.
  - intros Hbad. rewrite (compute_residual_run _ _ _ _ _ He).
    destruct (residual_asserts _ _) as [[]|e] eqn:E.
    + apply residual_asserts_Ok in E. tauto.
    + apply residual_asserts_Err in E as [-> _]. done.
  - intros [Hz Hh].
    destruct (compute_residual_two_columns _ _ _ _ _ He Hz Hh) as [Ha Hrun].
    rewrite Hrun. split_and!; [done..|].
    destruct (ewise2 _ _ _) eqn:E; cbn [mbind result_bind]; [done|].
    apply ewise2_Err in E as ->. done.
Qed.

(** C10: two matrices with two columns each pass all three assertions of
    [compute_residual] whatever their row counts are, so a point-count
    mismatch is not detected by them; the outcome is then decided by the
    subtraction alone. *)
Theorem residual_asserts_ignore_rows self target_pts h h' h_mat :
  compute_expected self target_pts h = (h', Ok h_mat) →
  ncols (get_measurement self) = 2 → ncols h_mat = 2 →
  nrows h_mat ≠ nrows (get_measurement self) →
  residual_asserts (get_measurement self) h_mat = Ok ()
  ∧ bool_decide (nrows (get_measurement self) = nrows (get_measurement self)) = true
  ∧ compute_residual self target_pts h
    = (h', d ← ewise2 rsub h_mat (get_measurement self); Ok (reshape_flat d)).
Proof.
  intros He Hz Hh _.
  destruct (compute_residual_two_columns _ _ _ _ _ He Hz Hh) as [Ha Hrun].
  split_and!; [done| by apply bool_decide_eq_true_2 | done].
Qed.

(** C7: in an exact fit, where the expected matrix is the observed one
    (an N x 2 matrix), the residual is the zero vector of length
    [get_residual_length], as a scalar minus itself is zero. *)
Theorem compute_residual_exact_fit self target_pts h h' h_mat :
  (∀ x : R, rsub x x = rzero) →
  compute_expected self target_pts h = (h', Ok h_mat) →
  ncols h_mat = 2 →
  h_mat = get_measurement self →
  compute_residual self target_pts h
  = (h', Ok (replicate (get_residual_length self) rzero)).
Proof.
  intros Hsub He Hc ->.
  destruct (decide (image_points (_M_cam self) = [])) as [Hnil|Hne].
  { rewrite get_measurement_empty in Hc by done. discriminate. }
  rewrite (compute_residual_run _ _ _ _ _ He).
  assert (residual_asserts (get_measurement self) (get_measurement self) = Ok ())
    as -> by by apply residual_asserts_Ok.
  cbn [mbind result_bind]. unfold get_residual_length.
  rewrite get_measurement_nonempty by done.
  rewrite ewise2_same_shape by (done || apply wf_pairs).
  cbn [mbind result_bind]. do 2 f_equal. unfold reshape_flat. cbn [rows ncols].
  clear -Hsub. induction (image_points (_M_cam self)) as [|pt l IH]; [done|].
  simpl. rewrite !Hsub. do 2 f_equal. exact IH.
Qed.

End Residual.

(** ** build_sparsity_dict *)

Section SparsityFacts.
Context {R : Type} `{Scalar R, Inverse R}.

Lemma lookup_foldl_insert {V} (v : V) (names : list string) (d : gmap string V) name :
  foldl (λ d n, <[n := v]> d) d names !! name
  = if decide (name ∈ names) then Some v else d !! name.
Proof.
  revert d. induction names as [|n names IH]; intros d; cbn [foldl].
  - rewrite decide_False; [done|apply not_elem_of_nil].
  - rewrite IH. destruct (decide (name ∈ names)) as [Hin|Hnin].
    + rewrite decide_True; [done|by right].
    + destruct (decide (name = n)) as [->|Hne].
      * rewrite lookup_insert_eq, decide_True; [done|by left].
      * rewrite lookup_insert_ne by done.
        rewrite decide_False; [done|]. by intros [?|?]%elem_of_cons.
Qed.

(** C4: on a resolved sensor whose positions are in the store,
    [build_sparsity_dict] raises [AssertionError] when the chain's link
    count differs from the number of joint positions; otherwise it
    returns a dictionary whose transforms are exactly the names of
    [before_chain + after_chain], each with the mask [1,1,1,1,1,1], whose
    only chain entry is the config's chain id with one mask [1,1,1,1] per
    link, and whose only rectified-camera entry is the sensor's camera id
    with [baseline_shift] set to 1. *)
Theorem build_sparsity_dict_spec (self : CameraChainSensor R) (h : store R) blk q :
  _calc_block self = Some blk →
  h !! position (chain_state (_M_chain self)) = Some q →
  sensor_id self = cfg_camera_id (_config_dict self) →
  (dh_M blk ≠ length q →
     build_sparsity_dict self h = (h, Err AssertionError))
  ∧ (dh_M blk = length q →
     ∃ sp,
       build_sparsity_dict self h = (h, Ok sp)
       ∧ (∀ name,
            sp_transforms sp !! name
            = if decide (name ∈ cfg_before_chain (cfg_chain (_config_dict self))
                                ++ cfg_after_chain (cfg_chain (_config_dict self)))
              then Some [1; 1; 1; 1; 1; 1]%Z else None)
       ∧ sp_dh_chains sp
         = {[ cfg_chain_id (cfg_chain (_config_dict self))
              := replicate (dh_M blk) [1; 1; 1; 1]%Z ]}
       ∧ length (replicate (dh_M blk) [1; 1; 1; 1]%Z) = dh_M blk
       ∧ sp_rectified_cameras sp
         = {[ cfg_camera_id (_config_dict self) := {[ "baseline_shift" := 1%Z ]} ]}).
Proof.
  intros Hblk Hq Hid. unfold build_sparsity_dict. cbv zeta.
  rewrite Hblk, M_bind_run, lift_run. cbn [attr].
  rewrite M_bind_run, (load_run _ _ _ Hq), M_bind_run, lift_run. split.
  - intros Hne. by rewrite bool_decide_eq_false_2.
  - intros Heq. rewrite bool_decide_eq_true_2 by done. cbn [assert_].
    eexists. split; [reflexivity|]. cbn [sp_transforms sp_dh_chains sp_rectified_cameras].
    split_and!.
    + intros name. by rewrite lookup_foldl_insert, lookup_empty.
    + reflexivity.
    + apply length_replicate.
    + by rewrite Hid.
Qed.

End SparsityFacts.

(** ** The store under compute_cov *)

Section Frame.
Context {R : Type} `{Scalar R, Inverse R}.

Lemma keeps_bind_post n {A B} (Q : A → Prop) (m : M R A) (f : A → M R B) :
  keeps n m →
  (∀ h h1 a, n ≤ length h → m h = (h1, Ok a) → Q a) →
  (∀ a, Q a → keeps n (f a)) →
  keeps n (m ≫= f).
Proof.
  intros Hm HQ Hf h Hh. rewrite M_bind_run.
  specialize (Hm h Hh). specialize (HQ h).
  destruct (m h) as [h1 [a|e]]; simpl in *; [|done].
  destruct Hm as [Hlen Htake].
  destruct (Hf a (HQ _ _ Hh eq_refl) h1 Hlen) as [? ?].
  split; [done|congruence].
Qed.

Lemma keeps_bind n {A B} (m : M R A) (f : A → M R B) :
  keeps n m → (∀ a, keeps n (f a)) → keeps n (m ≫= f).
Proof. intros Hm Hf. apply (keeps_bind_post n (λ _, True)); auto. Qed.

Lemma keeps_ret n {A} (a : A) : keeps n (mret a : M R A).
Proof. intros h Hh. done. Qed.

Lemma keeps_lift n {A} (r : result A) : keeps n (lift r : M R A).
Proof. intros h Hh. done. Qed.

Lemma keeps_load n l : keeps n (load l : M R (list R)).
Proof. intros h Hh. unfold load. destruct (h !! l); simpl; done. Qed.

Lemma keeps_slice_copy n l : keeps n (slice_copy l : M R loc).
Proof.
  intros h Hh. unfold slice_copy. destruct (h !! l); simpl; [|done].
  rewrite length_app, take_app_le by done. split; [lia|done].
Qed.

Lemma slice_copy_fresh n l (h h1 : store R) p :
  n ≤ length h → slice_copy l h = (h1, Ok p) → n ≤ p.
Proof. unfold slice_copy. destruct (h !! l); intros ? [=]; subst; done. Qed.

Lemma keeps_update_item n l i (f : R → R) :
  n ≤ l → keeps n (update_item l i f).
Proof.
  intros Hl h Hh. unfold update_item.
  destruct (h !! l) as [v|]; [|done]. destruct (v !! i); simpl; [|done].
  rewrite length_insert, take_insert_ge by done. done.
Qed.

Lemma keeps__compute_expected n self x target_pts :
  keeps n (_compute_expected self x target_pts).
Proof.
  unfold _compute_expected.
  repeat (apply keeps_bind; [first [apply keeps_lift | apply keeps_load]|intros ?]).
  apply keeps_ret.
Qed.

Lemma keeps_jacobian_loop n self target_pts epsilon f0 range Jt :
  keeps n (jacobian_loop self target_pts epsilon f0 range Jt).
Proof.
  revert Jt. induction range as [|i range IH]; intros Jt; cbn [jacobian_loop].
  - apply keeps_ret.
  - apply (keeps_bind_post n (λ p, n ≤ p)).
    + apply keeps_slice_copy.
    + intros h h1 p. apply slice_copy_fresh.
    + intros p Hp. cbv zeta. cbn [position].
      apply keeps_bind; [by apply keeps_update_item|intros _].
      apply keeps_bind; [apply keeps__compute_expected|intros e].
      apply keeps_bind; [apply keeps_lift|intros d].
      apply keeps_bind; [apply keeps_lift|intros Jt'].
      apply IH.
Qed.

Lemma keeps_compute_cov n self target_pts :
  keeps n (compute_cov self target_pts).
Proof.
  unfold compute_cov. cbv zeta.
  apply keeps_bind; [apply keeps_load|intros q].
  apply keeps_bind; [apply keeps_slice_copy|intros p].
  apply keeps_bind; [apply keeps__compute_expected|intros e0].
  apply keeps_bind; [apply keeps_jacobian_loop|intros Jt].
  repeat (apply keeps_bind; [apply keeps_lift|intros ?]).
  apply keeps_ret.
Qed.

(** C9: [compute_cov] leaves every list object of the store it is called
    in as it was, whether it returns or raises; in particular the
    positions of the bound chain observation are the same list after the
    call: the perturbations go to the copies it allocates. *)
Theorem compute_cov_keeps_positions self target_pts (h : store R) q :
  h !! position (chain_state (_M_chain self)) = Some q →
  (compute_cov self target_pts h).1 !! position (chain_state (_M_chain self))
  = Some q
  ∧ take (length h) (compute_cov self target_pts h).1 = h.
Proof.
  intros Hq.
  destruct (keeps_compute_cov (length h) self target_pts h) as [Hlen Htake]; [done|].
  rewrite firstn_all in Htake. split; [|done].
  rewrite <- Htake in Hq at 1.
  apply lookup_take_Some in Hq as [Hq _]. done.
Qed.

End Frame.

(** ** compute_cov: the finite-difference Jacobian *)

Section Jacobian.
Context {R : Type} `{Scalar R, Inverse R}.

Implicit Types (self : CameraChainSensor R) (target_pts : matrix R)
  (h : store R) (m Jt : matrix R) (q : list R).

Lemma lift_bind_run {A B} (r : result A) (f : A → M R B) h :
  (lift r ≫= f) h = match r with Ok a => f a h | Err e => (h, Err e) end.
Proof. rewrite M_bind_run, lift_run. by destruct r. Qed.

(** [_compute_expected] reads the positions and does not write. *)
Lemma _compute_expected_run self (x : JointState) target_pts h q :
  h !! position x = Some q →
  _compute_expected self x target_pts h = (h, expected_pixels self q target_pts).
Proof.
  intros Hq. unfold _compute_expected, expected_pixels.
  rewrite lift_bind_run. destruct (attr (_calc_block self)) as [blk|]; [|done].
  cbn [mbind result_bind]. rewrite M_bind_run, (load_run _ _ _ Hq).
  rewrite lift_bind_run. destruct (fk blk q) as [pose|]; [|done].
  cbn [mbind result_bind]. rewrite lift_bind_run.
  destruct (inverse pose) as [pose_I|]; [|done].
  cbn [mbind result_bind]. rewrite lift_bind_run.
  destruct (mmul pose_I target_pts) as [pts|]; [|done].
  cbn [mbind result_bind]. rewrite lift_bind_run.
  destruct (attr (_camera self)) as [cam|]; [|done].
  cbn [mbind result_bind]. rewrite lift_bind_run.
  destruct (project cam _ pts) as [px|]; [|done]. reflexivity.
Qed.

Lemma set_row_Ok m i (v : list R) m' :
  set_row m i v = Ok m' →
  i < nrows m ∧ ncols m' = ncols m
  ∧ rows m' = <[i := stretch (ncols m) v]> (rows m).
Proof.
  unfold set_row. case_decide; [|discriminate].
  case_decide as Hlen; [|case_decide; [|discriminate]]; intros [= <-];
    cbn [rows ncols]; split_and!; try done.
  by rewrite stretch_same.
Qed.

(** One iteration of the loop on the store: a copy of the positions is
    appended, and the copy alone is perturbed at index [i]. *)
Lemma perturbed_copy_run self target_pts h q i (f : R → R) x :
  h !! position (chain_state (_M_chain self)) = Some q →
  q !! i = Some x →
  (p ← slice_copy (position (chain_state (_M_chain self)));
   update_item p i f;;
   _compute_expected self {| position := p |} target_pts) h
  = (h ++ [<[i := f x]> q],
     expected_pixels self (<[i := f x]> q) target_pts).
Proof.
  intros Hq Hx. rewrite M_bind_run. unfold slice_copy at 1. rewrite Hq.
  rewrite M_bind_run. unfold update_item.
  rewrite list_lookup_middle by done. rewrite Hx.
  assert (<[length h := <[i := f x]> q]> (h ++ [q]) = h ++ [<[i := f x]> q]) as ->.
  { rewrite insert_app_r_alt by done. by rewrite Nat.sub_diag. }
  apply _compute_expected_run. cbn [position]. by rewrite list_lookup_middle.
Qed.

(** The loop over the joints [a, a + k): every row with such an index [i]
    holds the forward difference of the expected pixels, computed with
    joint [i] alone moved by the step; rows below [a] are not written. *)
Lemma jacobian_loop_rows self target_pts epsilon f0 q k a Jt h h' Jt' :
  h !! position (chain_state (_M_chain self)) = Some q →
  jacobian_loop self target_pts epsilon f0 (seq a k) Jt h = (h', Ok Jt') →
  h' !! position (chain_state (_M_chain self)) = Some q
  ∧ (∀ i, i < a → rows Jt' !! i = rows Jt !! i)
  ∧ (∀ i, a ≤ i < a + k →
       ∃ x e row,
         q !! i = Some x
         ∧ expected_pixels self (<[i := radd x epsilon]> q) target_pts = Ok e
         ∧ difference_row epsilon (ncols Jt) (reshape_flat e) f0 = Ok row
         ∧ rows Jt' !! i = Some row).
Proof.
  revert a Jt h. induction k as [|k IH]; intros a Jt h Hq; cbn [seq jacobian_loop].
  - intros [= <- <-]. split_and!; [done|done|]. intros i ?. lia.
  - cbv zeta. intros Hrun.
    destruct (q !! a) as [x|] eqn:Hx; last first.
    { rewrite M_bind_run in Hrun. unfold slice_copy at 1 in Hrun. rewrite Hq in Hrun.
      rewrite M_bind_run in Hrun. unfold update_item in Hrun.
      rewrite list_lookup_middle in Hrun by done. rewrite Hx in Hrun. discriminate. }
    assert (∀ {B} (g : matrix R → M R B),
      (p ← slice_copy (position (chain_state (_M_chain self)));
       update_item p a (λ y, radd y epsilon);;
       e ← _compute_expected self {| position := p |} target_pts; g e) h
      = (e ← (λ h1, (p ← slice_copy (position (chain_state (_M_chain self)));
                     update_item p a (λ y, radd y epsilon);;
                     _compute_expected self {| position := p |} target_pts) h1);
         g e) h) as Hassoc.
    { intros B g. rewrite !M_bind_run. destruct (slice_copy _ h) as [h1 [p|]]; [|done].
      rewrite !M_bind_run. by destruct (update_item _ _ _ h1) as [h2 [[]|]]. }
    cbn [position] in Hrun. rewrite Hassoc in Hrun. clear Hassoc.
    rewrite M_bind_run, (perturbed_copy_run _ _ _ _ _ _ _ Hq Hx) in Hrun.
    destruct (expected_pixels self _ target_pts) as [e|] eqn:He; [|discriminate].
    rewrite lift_bind_run in Hrun.
    destruct (ewise1 rsub (reshape_flat e) f0) as [d|] eqn:Hd; [|discriminate].
    rewrite lift_bind_run in Hrun.
    destruct (set_row Jt a _) as [Jt1|] eqn:Hset; [|discriminate].
    apply set_row_Ok in Hset as (Ha & Hc1 & Hrows1).
    apply IH in Hrun as (Hq' & Hlow & Hhigh); [|by apply lookup_app_l_Some].
    split_and!; [done| |].
    + intros i Hi. rewrite Hlow by lia. rewrite Hrows1.
      apply list_lookup_insert_ne. lia.
    + intros i Hi. destruct (decide (i = a)) as [->|Hne].
      * exists x, e, (stretch (ncols Jt) ((λ y, rdiv y epsilon) <$> d)).
        split_and!; [done|done| |].
        -- unfold difference_row. by rewrite Hd.
        -- rewrite Hlow by lia. rewrite Hrows1. by apply list_lookup_insert_eq.
      * destruct (Hhigh i) as (x' & e' & row & ? & ? & ? & ?); [lia|].
        exists x', e', row. rewrite <- Hc1. done.
Qed.

End Jacobian.

(** ** compute_cov: when it returns *)

Section CovShape.
Context {R : Type} `{Scalar R, Inverse R}.

Implicit Types (self : CameraChainSensor R) (target_pts : matrix R)
  (h : store R) (m Jt : matrix R).

Lemma lift_Ok {A} (r : result A) h h1 a :
  lift r h = (h1, Ok a) → h1 = h ∧ r = Ok a.
Proof. unfold lift. intros [= -> ->]. done. Qed.

Lemma load_Ok l h h1 v : load l h = (h1, Ok v) → h1 = h ∧ h !! l = Some v.
Proof. unfold load. destruct (h !! l); intros [=]; subst; done. Qed.

Lemma attr_Ok {A} (o : option A) a : attr o = Ok a → o = Some a.
Proof. destruct o; simpl; congruence. Qed.

Lemma set_row_shape m i v m' :
  set_row m i v = Ok m' →
  nrows m' = nrows m ∧ ncols m' = ncols m ∧ (wf m → wf m').
Proof.
  unfold set_row, nrows, wf. repeat case_decide; intros [= <-]; simpl;
    rewrite length_insert; split_and!; try done; intros Hwf;
    (apply Forall_insert; [done|]).
  - done.
  - apply stretch_length. by right.
Qed.

Lemma jacobian_loop_shape self target_pts epsilon f0 range Jt h h' Jt' :
  jacobian_loop self target_pts epsilon f0 range Jt h = (h', Ok Jt') →
  nrows Jt' = nrows Jt ∧ ncols Jt' = ncols Jt ∧ (wf Jt → wf Jt').
Proof.
  revert Jt h. induction range as [|i range IH]; intros Jt h; cbn [jacobian_loop].
  - intros [= _ ->]. done.
  - cbv zeta. intros Hrun.
    apply M_bind_Ok in Hrun as (p & h1 & _ & Hrun).
    apply M_bind_Ok in Hrun as (_ & h2 & _ & Hrun).
    apply M_bind_Ok in Hrun as (e & h3 & _ & Hrun).
    apply M_bind_Ok in Hrun as (d & h4 & _ & Hrun).
    apply M_bind_Ok in Hrun as (Jt1 & h5 & Hset & Hrun).
    apply lift_Ok in Hset as [_ Hset].
    apply set_row_shape in Hset as (Hr & Hc & Hwf).
    apply IH in Hrun as (Hr' & Hc' & Hwf').
    split_and!; [congruence..|auto].
Qed.

Lemma zeros_shape r c : nrows (zeros r c) = r ∧ ncols (zeros r c) = c ∧ wf (zeros r c).
Proof.
  unfold nrows, wf, zeros. simpl. rewrite length_replicate. split_and!; [done..|].
  apply Forall_replicate, length_replicate.
Qed.

(** The factor [matrix(diag(cov_angles))]: [cov_angles] is already the
    square array [diag(joint_angles)], so the second [diag] extracts its
    diagonal and the factor is a single row. *)
Lemma variance_factor_one_row (v : list R) :
  nrows (as_matrix (diag (diag (Array1 v)))) = 1.
Proof. reflexivity. Qed.

(** What a returning call of [compute_cov] has gone through. *)
Lemma compute_cov_Ok_inv self target_pts h h' cov :
  compute_cov self target_pts h = (h', Ok cov) →
  ∃ q blk cam Jt t chain_cov cam_cov,
    h !! position (chain_state (_M_chain self)) = Some q
    ∧ _calc_block self = Some blk
    ∧ _camera self = Some cam
    ∧ nrows Jt = length q
    ∧ ncols Jt = get_residual_length self
    ∧ wf Jt
    ∧ mmul (transpose Jt) (as_matrix (diag (diag (Array1 (cov_joint_angles blk)))))
      = Ok t
    ∧ mmul t Jt = Ok chain_cov
    ∧ cam_cov_loop (cov_u cam) (cov_v cam) (seq 0 (nrows chain_cov / 2))
        (zeros (nrows chain_cov) (ncols chain_cov)) = Ok cam_cov
    ∧ ewise2 radd chain_cov cam_cov = Ok cov
    ∧ is_jacobian_t self target_pts q Jt.
Proof.
  unfold compute_cov. cbv zeta. intros Hrun.
  apply M_bind_Ok in Hrun as (q & h1 & Hq & Hrun). apply load_Ok in Hq as [-> Hq].
  apply M_bind_Ok in Hrun as (p & h2 & Hp & Hrun).
  unfold slice_copy in Hp. rewrite Hq in Hp. injection Hp as <- <-.
  apply M_bind_Ok in Hrun as (e0 & h3 & He0 & Hrun).
  rewrite (_compute_expected_run _ _ _ _ q) in He0
    by (cbn [position]; by rewrite list_lookup_middle).
  injection He0 as <- He0.
  apply M_bind_Ok in Hrun as (Jt & h4 & HJt & Hrun).
  pose proof (jacobian_loop_rows _ _ _ _ q _ _ _ _ _ _
                (lookup_app_l_Some _ [q] _ _ Hq) HJt) as (_ & _ & Hrows).
  apply M_bind_Ok in Hrun as (blk & h5 & Hblk & Hrun).
  apply lift_Ok in Hblk as [-> Hblk%attr_Ok].
  apply M_bind_Ok in Hrun as (t & h6 & Ht & Hrun). apply lift_Ok in Ht as [-> Ht].
  apply M_bind_Ok in Hrun as (cc & h7 & Hcc & Hrun). apply lift_Ok in Hcc as [-> Hcc].
  apply M_bind_Ok in Hrun as (cam & h8 & Hcam & Hrun).
  apply lift_Ok in Hcam as [-> Hcam%attr_Ok].
  apply M_bind_Ok in Hrun as (camc & h9 & Hcamc & Hrun).
  apply lift_Ok in Hcamc as [-> Hcamc].
  apply M_bind_Ok in Hrun as (cov' & h10 & Hcov & Hrun).
  apply lift_Ok in Hcov as [-> Hcov].
  injection Hrun as _ ->.
  apply jacobian_loop_shape in HJt as (Hr & Hc & Hwf).
  destruct (zeros_shape (length q) (get_residual_length self)) as (Zr & Zc & Zwf).
  exists q, blk, cam, Jt, t, cc, camc.
  split_and!; try done.
  - by rewrite Hr.
  - by apply Hwf.
  - destruct (zeros_shape (nrows cc) (ncols cc)) as (E & _ & _).
    by rewrite E in Hcamc.
  - exists e0. split; [done|]. intros i Hi.
    destruct (Hrows i) as (x & e & row & ? & ? & Hrow & ?); [lia|].
    rewrite Zc in Hrow. eauto 10.
Qed.

(** A returning call has exactly one joint and one joint-angle variance:
    the product [matrix(Jt).T * matrix(diag(cov_angles)) * matrix(Jt)]
    multiplies a (2N x J) matrix by a single row, which numpy accepts
    only for J = 1. *)
Lemma compute_cov_Ok_single_joint self target_pts h h' cov q :
  h !! position (chain_state (_M_chain self)) = Some q →
  compute_cov self target_pts h = (h', Ok cov) →
  length q = 1.
Proof.
  intros Hq Hrun.
  apply compute_cov_Ok_inv in Hrun
    as (q' & blk & cam & Jt & t & cc & camc & Hq' & _ & _ & Hr & _ & _ & Ht & _).
  assert (q' = q) as -> by congruence.
  unfold mmul in Ht. case_decide as Hshape; [|discriminate].
  rewrite variance_factor_one_row in Hshape.
  unfold transpose in Hshape. simpl in Hshape. congruence.
Qed.

Lemma compute_cov_result self target_pts h :
  (∃ cov, (compute_cov self target_pts h).2 = Ok cov)
  ∨ (∃ e, (compute_cov self target_pts h).2 = Err e).
Proof. destruct (compute_cov self target_pts h) as [h' [cov|e]]; eauto. Qed.

(** C6: for a chain with zero joints [compute_cov] does not return the
    camera-noise covariance: it raises, since the product with the
    single-row variance factor is rejected when J is not 1. *)
Theorem compute_cov_zero_joints_raises self target_pts h :
  h !! position (chain_state (_M_chain self)) = Some [] →
  ∃ e, (compute_cov self target_pts h).2 = Err e.
Proof.
  intros Hq. destruct (compute_cov_result self target_pts h) as [[cov Hc]|He]; [|done].
  destruct (compute_cov self target_pts h) as [h' r] eqn:Hrun. simpl in Hc. subst r.
  apply (compute_cov_Ok_single_joint _ _ _ _ _ _ Hq) in Hrun. discriminate.
Qed.

End CovShape.

(** ** compute_cov: symmetry of the result *)

Section CovSymmetric.
Context {R : Type} `{Scalar R, Inverse R}.

Implicit Types (self : CameraChainSensor R) (target_pts : matrix R)
  (h : store R) (m a b c : matrix R).

Lemma entry_mmul a b c i j :
  mmul a b = Ok c →
  entry c i j
  = (row ← rows a !! i;
     if decide (j < ncols b) then Some (dot row (column j b)) else None).
Proof.
  unfold mmul. case_decide; [|discriminate]. intros [= <-].
  unfold entry. cbn [rows ncols]. rewrite list_lookup_fmap.
  destruct (rows a !! i) as [row|]; [|done]. cbn [fmap option_fmap option_map mbind option_bind].
  rewrite list_lookup_fmap. case_decide.
  - by rewrite lookup_seq_lt.
  - by rewrite lookup_seq_ge by lia.
Qed.

Lemma mmul_rows a b c :
  mmul a b = Ok c →
  rows c = (λ r, (λ j, dot r (column j b)) <$> seq 0 (ncols b)) <$> rows a.
Proof. unfold mmul. case_decide; [|discriminate]. by intros [= <-]. Qed.

Lemma mmul_shape a b c :
  mmul a b = Ok c →
  ncols a = nrows b ∧ nrows c = nrows a ∧ ncols c = ncols b ∧ wf c.
Proof.
  unfold mmul. case_decide; [|discriminate]. intros [= <-].
  unfold nrows, wf. cbn [rows ncols]. rewrite length_fmap. split_and!; [done..|].
  apply Forall_fmap, Forall_true. intros row. simpl.
  by rewrite length_fmap, length_seq.
Qed.

Lemma rows_transpose_lookup m i :
  rows (transpose m) !! i
  = if decide (i < ncols m) then Some (column i m) else None.
Proof.
  unfold transpose. cbn [rows]. rewrite list_lookup_fmap. case_decide.
  - by rewrite lookup_seq_lt.
  - by rewrite lookup_seq_ge by lia.
Qed.

Lemma entry_zeros (nr nc : nat) i j :
  entry (zeros nr nc) i j
  = if decide (i < nr) then if decide (j < nc) then Some rzero else None else None.
Proof.
  unfold entry, zeros. cbn [rows].
  destruct (decide (i < nr)).
  - rewrite lookup_replicate_2 by done. cbn [mbind option_bind].
    case_decide; [by rewrite lookup_replicate_2|].
    apply lookup_replicate_None. lia.
  - rewrite (proj1 (lookup_replicate_None _ _ _)) by lia. done.
Qed.

Lemma symmetric_zeros n : symmetric (zeros n n).
Proof. intros i j. rewrite !entry_zeros. by repeat case_decide. Qed.

Lemma entry_set_entry m i j x m' p q :
  set_entry m i j x = Ok m' →
  entry m' p q
  = if decide (p = i) then (r ← rows m !! i; <[j := x]> r !! q) else entry m p q.
Proof.
  unfold set_entry. destruct (rows m !! i) as [r|] eqn:Hr; [|discriminate].
  case_decide; [|discriminate]. intros [= <-]. unfold entry. cbn [rows].
  case_decide as Hp.
  - subst p. rewrite list_lookup_insert_eq by by eapply lookup_lt_Some. done.
  - by rewrite list_lookup_insert_ne.
Qed.

Lemma set_entry_shape m i j x m' :
  set_entry m i j x = Ok m' →
  nrows m' = nrows m ∧ ncols m' = ncols m ∧ (wf m → wf m').
Proof.
  unfold set_entry. destruct (rows m !! i) as [r|] eqn:Hr; [|discriminate].
  case_decide; [|discriminate]. intros [= <-]. unfold nrows, wf. cbn [rows ncols].
  rewrite length_insert. split_and!; [done..|]. intros Hwf.
  apply Forall_insert; [done|]. rewrite length_insert.
  by eapply (Forall_lookup_1 _ _ _ _ Hwf).
Qed.

(** Writing a diagonal entry keeps a symmetric matrix symmetric. *)
Lemma symmetric_set_entry_diag m k x m' :
  symmetric m → set_entry m k k x = Ok m' → symmetric m'.
Proof.
  intros Hsym Hset p q.
  rewrite !(entry_set_entry _ _ _ _ _ _ _ Hset).
  destruct (decide (p = k)) as [->|Hp], (decide (q = k)) as [->|Hq]; [done| | |done].
  - rewrite <- Hsym. unfold entry. destruct (rows m !! k); [|done]. simpl.
    by rewrite list_lookup_insert_ne.
  - rewrite Hsym. unfold entry. destruct (rows m !! k); [|done]. simpl.
    by rewrite list_lookup_insert_ne.
Qed.

Lemma cam_cov_loop_spec u v range m m' :
  cam_cov_loop u v range m = Ok m' →
  nrows m' = nrows m ∧ ncols m' = ncols m ∧ (wf m → wf m')
  ∧ (symmetric m → symmetric m').
Proof.
  revert m. induction range as [|k range IH]; intros m; cbn [cam_cov_loop].
  - intros [= ->]. done.
  - intros Hrun.
    apply result_bind_Ok in Hrun as (c1 & H1 & Hrun).
    apply result_bind_Ok in Hrun as (c2 & H2 & Hrun).
    apply IH in Hrun as (Hr & Hc & Hwf & Hsym).
    destruct (set_entry_shape _ _ _ _ _ H1) as (Hr1 & Hc1 & Hwf1).
    destruct (set_entry_shape _ _ _ _ _ H2) as (Hr2 & Hc2 & Hwf2).
    split_and!; [congruence|congruence|auto|].
    intros Hm. apply Hsym. eapply symmetric_set_entry_diag; [|exact H2].
    eapply symmetric_set_entry_diag; [|exact H1]. done.
Qed.

Lemma entry_zip_with (f : R → R → R) a b c i j :
  rows c = zip_with (zip_with f) (rows a) (rows b) →
  entry c i j
  = match entry a i j, entry b i j with
    | Some x, Some y => Some (f x y)
    | _, _ => None
    end.
Proof.
  intros Hc. unfold entry. rewrite Hc, lookup_zip_with.
  destruct (rows a !! i) as [u|]; [|done]. cbn [mbind option_bind].
  destruct (rows b !! i) as [w|]; cbn [mbind option_bind].
  - rewrite lookup_zip_with. destruct (u !! j); [|done]. cbn [mbind option_bind].
    by destruct (w !! j).
  - by destruct (u !! j).
Qed.

Lemma symmetric_ewise2 f a b c :
  wf a → wf b → nrows a = nrows b → ncols a = ncols b →
  symmetric a → symmetric b → ewise2 f a b = Ok c → symmetric c.
Proof.
  intros Ha Hb Hr Hc Hsa Hsb. rewrite ewise2_same_shape by done.
  intros [= <-] i j.
  rewrite (entry_zip_with f a b _ i j), (entry_zip_with f a b _ j i) by done.
  by rewrite (Hsa i j), (Hsb i j).
Qed.

(** The chain-induced covariance of a single-joint chain. *)
Lemma symmetric_chain_cov (r w : list R) n t chain_cov :
  (∀ x : R, radd rzero x = x) →
  (∀ x y : R, rmul x y = rmul y x) →
  (∀ x y z : R, rmul x (rmul y z) = rmul (rmul x y) z) →
  mmul (transpose (Matrix n [r])) (Matrix (length w) [w]) = Ok t →
  mmul t (Matrix n [r]) = Ok chain_cov →
  symmetric chain_cov.
Proof.
  intros Hzero Hcomm Hassoc Ht Hcc.
  destruct (mmul_shape _ _ _ Ht) as (_ & _ & Htc & _).
  destruct (mmul_shape _ _ _ Hcc) as (Hone & _ & _ & _).
  rewrite Htc in Hone. unfold nrows in Hone. cbn [ncols rows length] in Hone.
  destruct w as [|d [|? ?]]; try discriminate. clear Hone Htc.
  assert (∀ i, rows t !! i
     = if decide (i < n) then Some [dot [default rzero (r !! i)] [d]] else None) as Hrow.
  { intros i. rewrite (mmul_rows _ _ _ Ht).
    cbn [rows ncols]. rewrite list_lookup_fmap, rows_transpose_lookup.
    cbn [ncols]. case_decide; [|done]. reflexivity. }
  intros i j. rewrite !(entry_mmul _ _ _ _ _ Hcc), !Hrow. cbn [ncols].
  destruct (decide (i < n)), (decide (j < n)); cbn [mbind option_bind];
    rewrite ?decide_True, ?decide_False by done; try done.
  f_equal. unfold dot, column. cbn. f_equal.
  set (x := default rzero (r !! i)). set (y := default rzero (r !! j)).
  rewrite !Hzero, (Hcomm x d), (Hcomm y d), <- !Hassoc. f_equal. apply Hcomm.
Qed.

(** C5: the covariance returned by [compute_cov] is symmetric, for
    scalars where zero is neutral for addition and multiplication is
    commutative and associative (exact arithmetic; with floating point
    the two sides differ by rounding). *)
Theorem compute_cov_symmetric self target_pts h h' cov :
  (∀ x : R, radd rzero x = x) →
  (∀ x y : R, rmul x y = rmul y x) →
  (∀ x y z : R, rmul x (rmul y z) = rmul (rmul x y) z) →
  compute_cov self target_pts h = (h', Ok cov) →
  ∀ i j, entry cov i j = entry cov j i.
Proof.
  intros Hzero Hcomm Hassoc Hrun.
  apply compute_cov_Ok_inv in Hrun
    as (q & blk & cam & Jt & t & cc & camc & _ & _ & _ & _ & _ & HwfJ
        & Ht & Hcc & Hcam & Hcov & _).
  destruct (mmul_shape _ _ _ Ht) as (Hone & Htr & _ & _).
  destruct (mmul_shape _ _ _ Hcc) as (_ & Hccr & Hccc & Hccwf).
  rewrite variance_factor_one_row in Hone.
  destruct Jt as [n rs]. unfold transpose, nrows in Hone. cbn [ncols rows] in Hone.
  destruct rs as [|r [|? ?]]; try discriminate.
  assert (symmetric cc) as Hsym.
  { eapply (symmetric_chain_cov r); [done|done|done|exact Ht|exact Hcc]. }
  assert (nrows cc = ncols cc) as Hsq.
  { rewrite Hccr, Htr, Hccc. unfold nrows, transpose. cbn [rows ncols].
    by rewrite length_fmap, length_seq. }
  apply cam_cov_loop_spec in Hcam as (Hcr & Hcc' & Hcwf & Hcsym).
  destruct (zeros_shape (nrows cc) (ncols cc)) as (Zr & Zc & Zwf).
  eapply (symmetric_ewise2 radd cc camc); [done|by apply Hcwf| | | done| |exact Hcov].
  - by rewrite Hcr, Zr.
  - by rewrite Hcc', Zc.
  - apply Hcsym. rewrite Hsq. apply symmetric_zeros.
Qed.

End CovSymmetric.

(** ** compute_cov on a chain with a single joint *)

Section CovSingleJoint.
Context {R : Type} `{Scalar R, Inverse R}.

Implicit Types (self : CameraChainSensor R) (target_pts : matrix R)
  (h : store R) (m a b c : matrix R).

Lemma omap_seq_lookup {A} (f : nat → option A) (v : list A) :
  (∀ i, i < length v → f i = v !! i) → omap f (seq 0 (length v)) = v.
Proof.
  induction v as [|x v IH] using rev_ind; intros Hf; [done|].
  rewrite length_app, Nat.add_comm. cbn [length Nat.add].
  rewrite seq_S, omap_app. cbn [Nat.add omap list_omap].
  rewrite (Hf (length v)) by (rewrite length_app; simpl; lia).
  rewrite list_lookup_middle by done. rewrite IH; [done|].
  intros i Hi. rewrite Hf by (rewrite length_app; lia).
  by apply lookup_app_l.
Qed.

(** Applying [diag] to the square array [diag(v)] gives [v] back. *)
Lemma diag_diag (v : list R) : diag (diag (Array1 v)) = Array1 v.
Proof.
  cbn [diag]. f_equal. unfold nrows. cbn [rows ncols].
  rewrite length_imap, Nat.min_id. apply omap_seq_lookup.
  intros i Hi. unfold entry. cbn [rows]. rewrite list_lookup_imap.
  destruct (v !! i) as [x|] eqn:Hx; [|by apply lookup_ge_None in Hx; lia].
  cbn. apply list_lookup_insert_eq. by rewrite length_replicate.
Qed.

(** The entries of [Jt' * [[d]] * Jt] for the one-row [Jt = [r]]. *)
Lemma chain_cov_entry (r : list R) (d : R) n t chain_cov i j :
  mmul (transpose (Matrix n [r])) (Matrix 1 [[d]]) = Ok t →
  mmul t (Matrix n [r]) = Ok chain_cov →
  entry chain_cov i j
  = if decide (i < n) then
      if decide (j < n)
      then Some (dot [dot [default rzero (r !! i)] [d]] [default rzero (r !! j)])
      else None
    else None.
Proof.
  intros Ht Hcc.
  rewrite (entry_mmul _ _ _ _ _ Hcc), (mmul_rows _ _ _ Ht).
  cbn [rows ncols]. rewrite list_lookup_fmap, rows_transpose_lookup. cbn [ncols].
  destruct (decide (i < n)); [|done]. cbn [fmap option_fmap option_map mbind option_bind].
  destruct (decide (j < n)); [|done]. reflexivity.
Qed.

Lemma entry_set_entry_wf m i j x m' p q :
  wf m → set_entry m i j x = Ok m' →
  entry m' p q = if decide (p = i ∧ q = j) then Some x else entry m p q.
Proof.
  intros Hwf Hset. rewrite (entry_set_entry _ _ _ _ _ _ _ Hset).
  unfold set_entry in Hset. destruct (rows m !! i) as [r|] eqn:Hr; [|discriminate].
  case_decide as Hj; [|discriminate]. cbn [mbind option_bind].
  assert (length r = ncols m) as Hlen by by eapply (Forall_lookup_1 _ _ _ _ Hwf).
  destruct (decide (p = i)) as [->|Hp].
  - destruct (decide (q = j)) as [->|Hq].
    + rewrite decide_True by done. apply list_lookup_insert_eq. lia.
    + rewrite decide_False by tauto. rewrite list_lookup_insert_ne by done.
      unfold entry. by rewrite Hr.
  - by rewrite decide_False by tauto.
Qed.

(** The loop over [k] in [a, a + n) writes [u] at (2k, 2k) and [v] at
    (2k+1, 2k+1) and nothing else. *)
Lemma cam_cov_loop_entries u v n k0 m m' i j :
  wf m → cam_cov_loop u v (seq k0 n) m = Ok m' →
  entry m' i j
  = if decide (i = j ∧ 2 * k0 ≤ i < 2 * (k0 + n))
    then Some (if Nat.even i then u else v)
    else entry m i j.
Proof.
  revert k0 m. induction n as [|n IH]; intros k0 m Hwf; cbn [seq cam_cov_loop].
  - intros [= ->]. rewrite decide_False; [done|lia].
  - intros Hrun.
    apply result_bind_Ok in Hrun as (c1 & H1 & Hrun).
    apply result_bind_Ok in Hrun as (c2 & H2 & Hrun).
    destruct (set_entry_shape _ _ _ _ _ H1) as (_ & _ & Hwf1).
    destruct (set_entry_shape _ _ _ _ _ H2) as (_ & _ & Hwf2).
    rewrite (IH _ _ (Hwf2 (Hwf1 Hwf)) Hrun).
    rewrite (entry_set_entry_wf _ _ _ _ _ _ _ (Hwf1 Hwf) H2).
    rewrite (entry_set_entry_wf _ _ _ _ _ _ _ Hwf H1).
    destruct (decide (i = j ∧ 2 * S k0 ≤ i < 2 * (S k0 + n))) as [[-> ?]|Hn1].
    { rewrite decide_True; [done|lia]. }
    destruct (decide (i = 2 * k0 + 1 ∧ j = 2 * k0 + 1)) as [[-> ->]|Hn2].
    { rewrite decide_True by lia.
      replace (2 * k0 + 1) with (S (2 * k0)) by lia.
      by rewrite Nat.even_succ, Nat.odd_mul, Nat.odd_2. }
    destruct (decide (i = 2 * k0 ∧ j = 2 * k0)) as [[-> ->]|Hn3].
    { rewrite decide_True by lia. by rewrite Nat.even_mul, Nat.even_2. }
    rewrite decide_False; [done|lia].
Qed.

(** X10: for a single joint the product is accepted, and the result is what
    the covariance is meant to be: with [g] the forward-difference Jacobian row
    and [d] the joint-angle variance, entry (i, j) is [g_i * d * g_j] (the
    sums run over the single joint, starting from zero) plus the camera
    noise, [u] and [v] alternating on the diagonal. *)
Lemma compute_cov_single_joint self target_pts h h' cov :
  compute_cov self target_pts h = (h', Ok cov) →
  ∃ x d blk cam e0 e1 g,
    h !! position (chain_state (_M_chain self)) = Some [x]
    ∧ _calc_block self = Some blk ∧ cov_joint_angles blk = [d]
    ∧ _camera self = Some cam
    ∧ expected_pixels self [x] target_pts = Ok e0
    ∧ expected_pixels self [radd x lit_1e_8] target_pts = Ok e1
    ∧ difference_row lit_1e_8 (get_residual_length self)
        (reshape_flat e1) (reshape_flat e0) = Ok g
    ∧ length g = get_residual_length self
    ∧ ∀ i j gi gj,
        g !! i = Some gi → g !! j = Some gj →
        entry cov i j
        = Some (radd (dot [dot [gi] [d]] [gj])
                     (cam_noise (cov_u cam) (cov_v cam) i j)).
Proof.
  intros Hrun.
  apply compute_cov_Ok_inv in Hrun
    as (q & blk & cam & Jt & t & cc & camc & Hq & Hblk & Hcam & Hr & Hc & HwfJ
        & Ht & Hcc & Hloop & Hcov & e0 & He0 & Hjac).
  rewrite diag_diag in Ht. cbn [as_matrix] in Ht.
  destruct (mmul_shape _ _ _ Ht) as (Hone & Htr & Htc & _).
  destruct (mmul_shape _ _ _ Hcc) as (Hone' & Hccr & Hccc & Hccwf).
  destruct Jt as [n rs]. unfold transpose, nrows in Hone, Hr, Hone'.
  cbn [ncols rows length] in Hone, Hr, Hc, Hone', Htc. subst n.
  destruct rs as [|g [|? ?]]; try discriminate.
  rewrite Htc in Hone'. cbn [length] in Hone', Hr.
  destruct (cov_joint_angles blk) as [|d [|? ?]] eqn:Hvar; try discriminate.
  destruct q as [|x [|? ?]]; try discriminate.
  destruct (Hjac 0) as (x' & e1 & row & Hx & He1 & Hrow & Hg); [simpl; lia|].
  cbn in Hx, Hg. injection Hx as <-. injection Hg as <-.
  assert (length g = get_residual_length self) as Hlen.
  { unfold wf in HwfJ. cbn [rows ncols] in HwfJ. exact (Forall_inv HwfJ). }
  exists x, d, blk, cam, e0, e1, g. split_and!; try done.
  intros i j gi gj Hi Hj.
  assert (i < get_residual_length self) as Hilt
    by (rewrite <- Hlen; by eapply lookup_lt_Some).
  assert (j < get_residual_length self) as Hjlt
    by (rewrite <- Hlen; by eapply lookup_lt_Some).
  assert (nrows cc = get_residual_length self ∧ ncols cc = get_residual_length self)
    as [Hccr' Hccc'].
  { rewrite Hccr, Htr, Hccc. unfold nrows, transpose. cbn [rows ncols].
    by rewrite length_fmap, length_seq. }
  destruct (zeros_shape (nrows cc) (ncols cc)) as (Zr & Zc & Zwf).
  destruct (cam_cov_loop_spec _ _ _ _ _ Hloop) as (Hcr & Hcc' & Hcwf & _).
  rewrite ewise2_same_shape in Hcov; [|done|by apply Hcwf|congruence|congruence].
  injection Hcov as <-.
  rewrite (entry_zip_with radd cc camc) by done.
  rewrite (chain_cov_entry g d _ _ _ i j Ht Hcc).
  rewrite (decide_True _ _ Hilt), (decide_True _ _ Hjlt), Hi, Hj. cbn [default].
  rewrite (cam_cov_loop_entries _ _ _ _ _ _ i j Zwf Hloop), entry_zeros.
  rewrite Hccr', Hccc', (decide_True _ _ Hilt), (decide_True _ _ Hjlt).
  unfold get_residual_length in *. rewrite Nat.div_mul by done.
  unfold cam_noise. destruct (decide (i = j)) as [->|Hne].
  - rewrite decide_True; [done|lia].
  - rewrite decide_False; [done|tauto].
Qed.

End CovSingleJoint.

(** ** More on compute_residual and get_measurement *)

Section ResidualMore.
Context {R : Type} `{Scalar R, Inverse R}.

Implicit Types (self : CameraChainSensor R) (target_pts : matrix R)
  (h : store R) (z_mat h_mat : matrix R).

Lemma lookup_concat_rows {A} c (l : list (list A)) i j row x :
  Forall (λ r, length r = c) l →
  l !! i = Some row → row !! j = Some x →
  concat l !! (i * c + j) = Some x.
Proof.
  intros Hl. revert i. induction Hl as [|r l Hr _ IH]; intros i Hi Hj; [done|].
  destruct i as [|i]; simpl in *.
  - injection Hi as ->. by apply lookup_app_l_Some.
  - rewrite lookup_app_r by lia.
    replace (c + i * c + j - length r) with (i * c + j) by lia. by apply IH.
Qed.

(** X1: with N >= 1 observed points and a well-formed N x 2 expected
    matrix, [compute_residual] returns a vector of [get_residual_length]
    entries in which point [i] occupies the positions 2i and 2i+1: the
    expected minus the observed x, then the expected minus the observed
    y. *)
Theorem compute_residual_point_major self target_pts h h' h_mat :
  image_points (_M_cam self) ≠ [] →
  compute_expected self target_pts h = (h', Ok h_mat) →
  wf h_mat → ncols h_mat = 2 →
  nrows h_mat = length (image_points (_M_cam self)) →
  ∃ r,
    compute_residual self target_pts h = (h', Ok r)
    ∧ length r = get_residual_length self
    ∧ ∀ i pt hx hy,
        image_points (_M_cam self) !! i = Some pt →
        rows h_mat !! i = Some [hx; hy] →
        r !! (2 * i) = Some (rsub hx (pt_x pt))
        ∧ r !! (2 * i + 1) = Some (rsub hy (pt_y pt)).
Proof.
  intros Hne He Hwf Hc Hr.
  destruct (compute_residual_nonempty _ _ _ _ _ Hne He Hwf Hc Hr) as (r & Hrun & -> & Hlen).
  exists (concat (zip_with (zip_with rsub) (rows h_mat) (rows (get_measurement self)))).
  split_and!; [done|done|]. intros i pt hx hy Hpt Hrow.
  rewrite get_measurement_nonempty by done. cbn [rows].
  assert (zip_with (zip_with rsub) (rows h_mat)
            ((λ pt, [pt_x pt; pt_y pt]) <$> image_points (_M_cam self)) !! i
          = Some [rsub hx (pt_x pt); rsub hy (pt_y pt)]) as Hz.
  { rewrite lookup_zip_with, Hrow, list_lookup_fmap, Hpt. reflexivity. }
  assert (Forall (λ r : list R, length r = 2)
            (zip_with (zip_with rsub) (rows h_mat)
               ((λ pt, [pt_x pt; pt_y pt]) <$> image_points (_M_cam self)))) as Hall.
  { apply Forall_length_zip_with; [by rewrite <- Hc|apply (wf_pairs pt_x pt_y)]. }
  split.
  - replace (2 * i) with (i * 2 + 0) by lia.
    by apply (lookup_concat_rows 2 _ _ _ _ _ Hall Hz).
  - replace (2 * i + 1) with (i * 2 + 1) by lia.
    by apply (lookup_concat_rows 2 _ _ _ _ _ Hall Hz).
Qed.

(** X2: when both matrices have two columns but different row counts,
    neither of them 1, the assertions pass and the subtraction raises
    [ValueError]: the point-count mismatch surfaces as a numpy shape error,
    not as an assertion failure. *)
Theorem compute_residual_row_mismatch_raises self target_pts h h' h_mat :
  compute_expected self target_pts h = (h', Ok h_mat) →
  ncols (get_measurement self) = 2 → ncols h_mat = 2 →
  nrows h_mat ≠ nrows (get_measurement self) →
  nrows h_mat ≠ 1 → nrows (get_measurement self) ≠ 1 →
  compute_residual self target_pts h = (h', Err ValueError).
Proof.
  intros He Hz Hh Hne H1 H2.
  destruct (compute_residual_two_columns _ _ _ _ _ He Hz Hh) as [_ ->].
  unfold ewise2, broadcast_dim.
  rewrite (decide_False _ _ Hne), (decide_False _ _ H1), (decide_False _ _ H2).
  reflexivity.
Qed.

Lemma zip_with_stretch_rows (f : R → R → R) (l : list (list R)) (v : list R) :
  Forall (λ r, length r = length v) l →
  zip_with (λ u w, zip_with f (stretch (length v) u) (stretch (length v) w))
    l (replicate (length l) v)
  = (λ u, zip_with f u v) <$> l.
Proof.
  induction 1 as [|u l Hu _ IH]; [done|]. cbn [length replicate zip_with fmap list_fmap].
  rewrite (stretch_same _ u), (stretch_same _ v) by done. f_equal. exact IH.
Qed.

(** X3: with a single observed point and an expected matrix of M rows
    (two columns each), [compute_residual] does not fail: numpy broadcasts
    the observed row, every expected point is compared with the one
    observed point, and the result has 2M entries, whatever
    [get_residual_length] (which is 2) says. *)
Theorem compute_residual_single_point_broadcasts self target_pts h h' h_mat pt :
  image_points (_M_cam self) = [pt] →
  compute_expected self target_pts h = (h', Ok h_mat) →
  wf h_mat → ncols h_mat = 2 →
  get_residual_length self = 2
  ∧ compute_residual self target_pts h
    = (h', Ok (concat ((λ row, zip_with rsub row [pt_x pt; pt_y pt]) <$> rows h_mat)))
  ∧ length (concat ((λ row, zip_with rsub row [pt_x pt; pt_y pt]) <$> rows h_mat))
    = 2 * nrows h_mat.
Proof.
  intros Hpt He Hwf Hc.
  assert (get_measurement self = Matrix 2 [[pt_x pt; pt_y pt]]) as Hz.
  { unfold get_measurement. by rewrite Hpt. }
  split; [unfold get_residual_length; by rewrite Hpt|].
  destruct (compute_residual_two_columns _ _ _ _ _ He) as [_ ->]; [by rewrite Hz|done|].
  rewrite Hz. unfold wf in Hwf. rewrite Hc in Hwf. split.
  - unfold ewise2, nrows. cbn [rows ncols length]. rewrite Hc.
    assert (broadcast_dim (length (rows h_mat)) 1 = Ok (length (rows h_mat))) as ->.
    { unfold broadcast_dim. destruct (decide (length (rows h_mat) = 1)) as [->|?]; [done|].
      destruct (decide (length (rows h_mat) = 1)); [done|].
      by rewrite decide_True. }
    rewrite broadcast_dim_same. cbn [mbind result_bind].
    rewrite (stretch_same _ (rows h_mat)) by done.
    cbn [stretch].
    by rewrite (zip_with_stretch_rows rsub (rows h_mat) [pt_x pt; pt_y pt]).
  - rewrite (length_concat_rows 2).
    + rewrite length_fmap. unfold nrows. lia.
    + apply Forall_fmap. eapply Forall_impl; [exact Hwf|].
      intros row Hrow. simpl. rewrite length_zip_with_l_eq; done.
Qed.

(** X4: the number of entries of the observed matrix is
    [get_residual_length] for every observation, the empty one included;
    a non-empty observation gives a well-formed N x 2 matrix whose row [i]
    is the point [i], and the empty observation gives the shape (1, 0). *)
Theorem get_measurement_shape self :
  length (reshape_flat (get_measurement self)) = get_residual_length self
  ∧ wf (get_measurement self)
  ∧ (image_points (_M_cam self) ≠ [] →
       nrows (get_measurement self) = length (image_points (_M_cam self))
       ∧ ncols (get_measurement self) = 2
       ∧ ∀ i pt, image_points (_M_cam self) !! i = Some pt →
                 rows (get_measurement self) !! i = Some [pt_x pt; pt_y pt])
  ∧ (image_points (_M_cam self) = [] →
       nrows (get_measurement self) = 1 ∧ ncols (get_measurement self) = 0).
Proof.
  destruct (decide (image_points (_M_cam self) = [])) as [Hnil|Hne].
  - rewrite (get_measurement_empty _ Hnil). unfold get_residual_length.
    rewrite Hnil. split_and!; [done| |done|done].
    unfold wf. cbn. by constructor.
  - rewrite (get_measurement_nonempty _ Hne).
    pose proof (wf_pairs pt_x pt_y (image_points (_M_cam self))) as Hwf.
    split_and!; [|done| |done].
    + unfold reshape_flat. rewrite (length_concat_rows 2) by exact Hwf.
      cbn [rows]. by rewrite length_fmap.
    + intros _. unfold nrows. cbn [rows ncols]. rewrite length_fmap.
      split_and!; [done..|]. intros i pt Hpt. by rewrite list_lookup_fmap, Hpt.
Qed.

(** X5: [compute_expected], [compute_residual] and [build_sparsity_dict]
    only read the store: after each of them, returning or raising, the
    store is exactly the one they were called in. *)
Theorem reading_methods_keep_store self target_pts h :
  (compute_expected self target_pts h).1 = h
  ∧ (compute_residual self target_pts h).1 = h
  ∧ (build_sparsity_dict self h).1 = h.
Proof.
  assert (∀ x, (_compute_expected self x target_pts h).1 = h) as Hexp.
  { intros x. unfold _compute_expected. rewrite lift_bind_run.
    destruct (attr (_calc_block self)) as [blk|]; [|done].
    rewrite M_bind_run. unfold load. destruct (h !! position x) as [q|]; [|done].
    rewrite lift_bind_run. destruct (fk blk q) as [pose|]; [|done].
    rewrite lift_bind_run. destruct (inverse pose) as [pose_I|]; [|done].
    rewrite lift_bind_run. destruct (mmul pose_I target_pts) as [pts|]; [|done].
    rewrite lift_bind_run. destruct (attr (_camera self)) as [cam|]; [|done].
    rewrite lift_bind_run. by destruct (project cam _ pts). }
  split_and!.
  - apply Hexp.
  - unfold compute_residual, compute_expected. cbv zeta. rewrite M_bind_run.
    specialize (Hexp (chain_state (_M_chain self))).
    destruct (_compute_expected self _ target_pts h) as [h1 [h_mat|e]];
      simpl in Hexp; subst h1; [|done].
    rewrite lift_bind_run. destruct (residual_asserts _ _) as [[]|]; [|done].
    rewrite lift_bind_run. by destruct (ewise2 _ _ _).
  - unfold build_sparsity_dict. cbv zeta. rewrite lift_bind_run.
    destruct (attr (_calc_block self)) as [blk|]; [|done].
    rewrite M_bind_run. unfold load.
    destruct (h !! position (chain_state (_M_chain self))) as [q|]; [|done].
    rewrite lift_bind_run. by destruct (assert_ _) as [[]|].
Qed.

End ResidualMore.

(** ** More on compute_expected *)

Section ExpectedMore.
Context {R : Type} `{Scalar R, Inverse R}.

Implicit Types (self : CameraChainSensor R) (target_pts : matrix R)
  (h : store R) (m : matrix R).

Lemma entry_transpose m i j : wf m → entry (transpose m) i j = entry m j i.
Proof.
  intros Hwf. unfold entry. rewrite rows_transpose_lookup.
  destruct (rows m !! j) as [r|] eqn:Hr; cbn [mbind option_bind].
  - assert (length r = ncols m) as Hlen by by eapply (Forall_lookup_1 _ _ _ _ Hwf).
    case_decide as Hi; cbn [mbind option_bind].
    + unfold column. rewrite list_lookup_fmap, Hr. cbn.
      destruct (r !! i) eqn:Hri; [done|]. apply lookup_ge_None in Hri. lia.
    + symmetry. apply lookup_ge_None. lia.
  - case_decide; cbn [mbind option_bind]; [|done].
    unfold column. by rewrite list_lookup_fmap, Hr.
Qed.

Lemma transpose_shape m :
  nrows (transpose m) = ncols m ∧ ncols (transpose m) = nrows m ∧ wf (transpose m).
Proof.
  unfold nrows, wf, transpose. cbn [rows ncols].
  rewrite length_fmap, length_seq. split_and!; [done..|].
  apply Forall_fmap, Forall_true. intros j. simpl. unfold column.
  by rewrite length_fmap.
Qed.

(** X6: on a resolved sensor, when the forward kinematics, the inversion,
    the product with the target points and the projection succeed and the
    projection returns a well-formed matrix [px] (2 x N by its contract),
    [compute_expected] returns its transpose without touching the store:
    a well-formed matrix with one row per projected point, entry (i, j) of
    which is entry (j, i) of [px]. *)
Theorem compute_expected_transposes_projection
    self target_pts h blk cam q pose pose_I pts px :
  _calc_block self = Some blk → _camera self = Some cam →
  h !! position (chain_state (_M_chain self)) = Some q →
  fk blk q = Ok pose → inverse pose = Ok pose_I →
  mmul pose_I target_pts = Ok pts →
  project cam (P (cam_info (_M_cam self))) pts = Ok px →
  wf px →
  ∃ e,
    compute_expected self target_pts h = (h, Ok e)
    ∧ nrows e = ncols px ∧ ncols e = nrows px ∧ wf e
    ∧ ∀ i j, entry e i j = entry px j i.
Proof.
  intros Hblk Hcam Hq Hfk Hinv Hmul Hproj Hwf.
  exists (transpose px). unfold compute_expected.
  rewrite (_compute_expected_run _ _ _ _ _ Hq). unfold expected_pixels.
  rewrite Hblk. cbn [attr mbind result_bind]. rewrite Hfk. cbn [mbind result_bind].
  rewrite Hinv. cbn [mbind result_bind]. rewrite Hmul. cbn [mbind result_bind].
  rewrite Hcam. cbn [attr mbind result_bind]. rewrite Hproj. cbn [mbind result_bind].
  destruct (transpose_shape px) as (? & ? & ?).
  split_and!; [done..|]. intros i j. by apply entry_transpose.
Qed.

(** X7: when the target points do not have as many rows as the inverted
    camera pose has columns, the product [camera_pose_root.I * target_pts]
    is rejected and [compute_expected] raises [ValueError]; the projection
    is not reached. *)
Theorem compute_expected_target_shape_mismatch
    self target_pts h blk q pose pose_I :
  _calc_block self = Some blk →
  h !! position (chain_state (_M_chain self)) = Some q →
  fk blk q = Ok pose → inverse pose = Ok pose_I →
  ncols pose_I ≠ nrows target_pts →
  compute_expected self target_pts h = (h, Err ValueError).
Proof.
  intros Hblk Hq Hfk Hinv Hne. unfold compute_expected.
  rewrite (_compute_expected_run _ _ _ _ _ Hq). unfold expected_pixels.
  rewrite Hblk. cbn [attr mbind result_bind]. rewrite Hfk. cbn [mbind result_bind].
  rewrite Hinv. cbn [mbind result_bind]. unfold mmul.
  by rewrite (decide_False _ _ Hne).
Qed.

End ExpectedMore.

(** ** More on compute_cov *)

Section CovMore.
Context {R : Type} `{Scalar R, Inverse R}.

Implicit Types (self : CameraChainSensor R) (target_pts : matrix R)
  (h : store R) (m Jt : matrix R) (q : list R).

(** One iteration of the Jacobian loop, run on a store that holds the
    bound positions [q]. *)
Lemma jacobian_loop_cons self target_pts epsilon f0 q i x range Jt h :
  h !! position (chain_state (_M_chain self)) = Some q →
  q !! i = Some x →
  jacobian_loop self target_pts epsilon f0 (i :: range) Jt h
  = let q' := <[i := radd x epsilon]> q in
    match expected_pixels self q' target_pts with
    | Ok e =>
        match ewise1 rsub (reshape_flat e) f0 with
        | Ok d =>
            match set_row Jt i ((λ a, rdiv a epsilon) <$> d) with
            | Ok Jt' =>
                jacobian_loop self target_pts epsilon f0 range Jt' (h ++ [q'])
            | Err e => (h ++ [q'], Err e)
            end
        | Err e => (h ++ [q'], Err e)
        end
    | Err e => (h ++ [q'], Err e)
    end.
Proof.
  intros Hq Hx. cbn [jacobian_loop]. cbv zeta. cbn [position].
  rewrite M_bind_run. unfold slice_copy at 1. rewrite Hq.
  rewrite M_bind_run. unfold update_item.
  rewrite list_lookup_middle by done. rewrite Hx.
  assert (<[length h := <[i := radd x epsilon]> q]> (h ++ [q])
          = h ++ [<[i := radd x epsilon]> q]) as ->.
  { rewrite insert_app_r_alt by done. by rewrite Nat.sub_diag. }
  rewrite M_bind_run.
  rewrite (_compute_expected_run _ _ _ _ (<[i := radd x epsilon]> q))
    by (cbn [position]; by rewrite list_lookup_middle).
  destruct (expected_pixels self _ target_pts) as [e|]; [|done].
  rewrite lift_bind_run. destruct (ewise1 rsub _ f0) as [d|]; [|done].
  rewrite lift_bind_run. by destruct (set_row Jt i _).
Qed.

(** The copies the loop leaves in the store: one per joint, each equal to
    the bound positions except at its own index. *)
Lemma jacobian_loop_store self target_pts epsilon f0 q k a Jt h h' Jt' :
  h !! position (chain_state (_M_chain self)) = Some q →
  jacobian_loop self target_pts epsilon f0 (seq a k) Jt h = (h', Ok Jt') →
  ∃ copies,
    h' = h ++ copies ∧ length copies = k
    ∧ ∀ i x, i < k → q !! (a + i) = Some x →
        copies !! i = Some (<[a + i := radd x epsilon]> q).
Proof.
  revert a Jt h. induction k as [|k IH]; intros a Jt h Hq; cbn [seq].
  - cbn [jacobian_loop]. intros [= <- <-]. exists []. rewrite app_nil_r.
    split_and!; [done..|]. intros i x ?. lia.
  - destruct (q !! a) as [x|] eqn:Hx; last first.
    { cbn [jacobian_loop]. cbv zeta. rewrite M_bind_run. unfold slice_copy at 1.
      rewrite Hq, M_bind_run. unfold update_item.
      rewrite list_lookup_middle by done. cbn [position]. by rewrite Hx. }
    rewrite (jacobian_loop_cons _ _ _ _ _ _ _ _ _ _ Hq Hx). cbv zeta.
    destruct (expected_pixels self _ target_pts) as [e|]; [|done].
    destruct (ewise1 rsub _ f0) as [d|]; [|done].
    destruct (set_row Jt a _) as [Jt1|]; [|done]. intros Hrun.
    apply IH in Hrun as (copies & -> & Hlen & Hcopies); [|by apply lookup_app_l_Some].
    exists (<[a := radd x epsilon]> q :: copies).
    split_and!; [by rewrite <- app_assoc|simpl; lia|].
    intros [|i] y Hi Hy.
    + rewrite Nat.add_0_r in Hy |- *. by simplify_eq.
    + cbn [lookup list_lookup]. replace (a + S i) with (S a + i) in Hy |- * by lia.
      apply Hcopies; [lia|done].
Qed.

(** X8: the loop [for i in range(num_joints)] of [compute_cov], for a
    chain with any number J of joints: when it completes, [Jt] is a
    well-formed J x 2N matrix whose row [i] is
    [(fTest - f0) / epsilon] with [fTest] the expected pixels for the
    positions in which joint [i] alone is moved by [epsilon]; the store
    has grown by J copies of the positions, copy [i] differing from them
    at index [i] only, and the bound positions are still [q]. *)
Theorem jacobian_loop_forward_differences
    self target_pts epsilon f0 q n h h' Jt :
  h !! position (chain_state (_M_chain self)) = Some q →
  jacobian_loop self target_pts epsilon f0 (seq 0 (length q))
    (zeros (length q) n) h = (h', Ok Jt) →
  nrows Jt = length q ∧ ncols Jt = n ∧ wf Jt
  ∧ h' !! position (chain_state (_M_chain self)) = Some q
  ∧ length h' = length h + length q
  ∧ ∀ i x, q !! i = Some x →
      ∃ e row,
        expected_pixels self (<[i := radd x epsilon]> q) target_pts = Ok e
        ∧ difference_row epsilon n (reshape_flat e) f0 = Ok row
        ∧ rows Jt !! i = Some row
        ∧ h' !! (length h + i) = Some (<[i := radd x epsilon]> q).
Proof.
  intros Hq Hrun.
  destruct (jacobian_loop_shape _ _ _ _ _ _ _ _ _ Hrun) as (Hr & Hc & Hwf).
  destruct (zeros_shape (length q) n) as (Zr & Zc & Zwf).
  destruct (jacobian_loop_rows _ _ _ _ _ _ _ _ _ _ _ Hq Hrun) as (Hq' & _ & Hrows).
  destruct (jacobian_loop_store _ _ _ _ _ _ _ _ _ _ _ Hq Hrun)
    as (copies & -> & Hlen & Hcopies).
  split_and!; [congruence|congruence|auto|done|by rewrite length_app, Hlen|].
  intros i x Hx.
  assert (i < length q) as Hi by by eapply lookup_lt_Some.
  destruct (Hrows i) as (x' & e & row & Hx' & He & Hrow & HJt); [lia|].
  assert (x' = x) as -> by congruence.
  exists e, row. rewrite Zc in Hrow. split_and!; [done..|].
  rewrite lookup_app_r by lia. rewrite Nat.add_comm, Nat.add_sub.
  by apply Hcopies.
Qed.

(** X9: [compute_cov] raises for every chain whose number of joints is
    not 1, and for every chain whose number of joint-angle variances is
    not 1: [matrix(diag(cov_angles))] is the single row of the variances,
    and the two matrix products accept it only when both counts are 1. *)
Theorem compute_cov_requires_single_joint self target_pts h q blk :
  h !! position (chain_state (_M_chain self)) = Some q →
  _calc_block self = Some blk →
  length q ≠ 1 ∨ length (cov_joint_angles blk) ≠ 1 →
  ∃ e, (compute_cov self target_pts h).2 = Err e.
Proof.
  intros Hq Hblk Hbad.
  destruct (compute_cov self target_pts h) as [h' [cov|e]] eqn:Hrun; [|by eexists].
  exfalso.
  apply compute_cov_Ok_inv in Hrun
    as (q' & blk' & cam & Jt & t & cc & camc & Hq' & Hblk' & _ & Hr & _ & _
        & Ht & Hcc & _).
  assert (q' = q) as -> by congruence. assert (blk' = blk) as -> by congruence.
  rewrite diag_diag in Ht. cbn [as_matrix] in Ht.
  destruct (mmul_shape _ _ _ Ht) as (Hone & _ & Htc & _).
  destruct (mmul_shape _ _ _ Hcc) as (Hone' & _).
  unfold transpose, nrows in Hone. cbn [ncols rows length] in Hone, Htc.
  fold (nrows Jt) in Hone. destruct Hbad as [Hbad|Hbad]; [congruence|].
  apply Hbad. rewrite <- Htc, Hone'. done.
Qed.

(** X11: a chain with at least one joint and an expected-pixel vector
    whose length L is neither [get_residual_length] nor 1 (the target has
    another number of points than the observation): the first row
    assignment [Jt[0] = (fTest - f0)/epsilon] is rejected and
    [compute_cov] raises [ValueError], leaving the baseline copy and one
    perturbed copy in the store. *)
Theorem compute_cov_point_count_mismatch self target_pts h q x e0 e1 :
  h !! position (chain_state (_M_chain self)) = Some q →
  q !! 0 = Some x →
  expected_pixels self q target_pts = Ok e0 →
  expected_pixels self (<[0 := radd x lit_1e_8]> q) target_pts = Ok e1 →
  length (reshape_flat e1) = length (reshape_flat e0) →
  length (reshape_flat e0) ≠ get_residual_length self →
  length (reshape_flat e0) ≠ 1 →
  compute_cov self target_pts h
  = (h ++ [q; <[0 := radd x lit_1e_8]> q], Err ValueError).
Proof.
  intros Hq Hx He0 He1 Hlen Hne Hne1. unfold compute_cov. cbv zeta.
  rewrite M_bind_run, (load_run _ _ _ Hq), M_bind_run.
  unfold slice_copy at 1. rewrite Hq, M_bind_run.
  rewrite (_compute_expected_run _ _ _ _ q)
    by (cbn [position]; by rewrite list_lookup_middle).
  rewrite He0, M_bind_run.
  destruct q as [|x' q]; [done|]. injection Hx as ->.
  cbn [length seq].
  rewrite (jacobian_loop_cons _ _ _ _ (x :: q) 0 x)
    by (by apply lookup_app_l_Some || done).
  cbv zeta. rewrite He1.
  unfold ewise1. rewrite Hlen, broadcast_dim_same. cbn [mbind result_bind].
  unfold set_row.
  destruct (zeros_shape (S (length q)) (get_residual_length self)) as (Zr & Zc & _).
  rewrite Zr, Zc. rewrite decide_True by lia.
  rewrite length_fmap, length_zip_with.
  rewrite !stretch_same by done. rewrite Hlen, Nat.min_id.
  rewrite (decide_False _ _ Hne), (decide_False _ _ Hne1).
  by rewrite <- app_assoc.
Qed.

(** X15: whenever [compute_cov] returns, the result is a well-formed
    square matrix with [get_residual_length] rows and columns. *)
Theorem compute_cov_shape self target_pts h h' cov :
  compute_cov self target_pts h = (h', Ok cov) →
  nrows cov = get_residual_length self
  ∧ ncols cov = get_residual_length self
  ∧ wf cov.
Proof.
  intros Hrun.
  apply compute_cov_Ok_inv in Hrun
    as (q' & blk & cam & Jt & t & cc & camc & _ & _ & _ & _ & Hc & _
        & Ht & Hcc & Hloop & Hcov & _).
  destruct (mmul_shape _ _ _ Ht) as (_ & Htr & _ & _).
  destruct (mmul_shape _ _ _ Hcc) as (_ & Hccr & Hccc & Hccwf).
  destruct (transpose_shape Jt) as (Htn & _ & _).
  destruct (zeros_shape (nrows cc) (ncols cc)) as (Zr & Zc & Zwf).
  destruct (cam_cov_loop_spec _ _ _ _ _ Hloop) as (Hcr & Hcc' & Hcwf & _).
  rewrite ewise2_same_shape in Hcov; [|done|by apply Hcwf|congruence|congruence].
  injection Hcov as <-. unfold nrows at 1, wf. cbn [rows ncols].
  split_and!.
  - rewrite length_zip_with_l_eq by (unfold nrows in *; congruence).
    fold (nrows cc). congruence.
  - congruence.
  - apply Forall_length_zip_with; [done|]. rewrite <- Zc, <- Hcc'. by apply Hcwf.
Qed.

Lemma M_bind_ext {A B} (m : M R A) (f g : A → M R B) h :
  (∀ a h1, f a h1 = g a h1) → (m ≫= f) h = (m ≫= g) h.
Proof. intros Hfg. rewrite !M_bind_run. by destruct (m h) as [h1 [a|e]]. Qed.

Lemma _compute_expected_agree self1 self2 (x : JointState) target_pts h :
  _calc_block self1 = _calc_block self2 → _camera self1 = _camera self2 →
  cam_info (_M_cam self1) = cam_info (_M_cam self2) →
  _compute_expected self1 x target_pts h = _compute_expected self2 x target_pts h.
Proof. unfold _compute_expected. by intros -> -> ->. Qed.

Lemma jacobian_loop_agree self1 self2 target_pts epsilon f0 range Jt h :
  _calc_block self1 = _calc_block self2 → _camera self1 = _camera self2 →
  cam_info (_M_cam self1) = cam_info (_M_cam self2) →
  _M_chain self1 = _M_chain self2 →
  jacobian_loop self1 target_pts epsilon f0 range Jt h
  = jacobian_loop self2 target_pts epsilon f0 range Jt h.
Proof.
  intros Hb Hc Hp Hch. revert Jt h.
  induction range as [|i range IH]; intros Jt h; [done|].
  cbn [jacobian_loop]. cbv zeta. rewrite Hch.
  apply M_bind_ext. intros p h1. apply M_bind_ext. intros _ h2.
  rewrite !M_bind_run, (_compute_expected_agree self1 self2) by done.
  destruct (_compute_expected self2 _ target_pts h2) as [h3 [e|]]; [|done].
  apply M_bind_ext. intros d h4. apply M_bind_ext. intros Jt' h5. apply IH.
Qed.

(** X16: the covariance does not depend on the observed pixel values:
    two sensors with the same chain observation, the same resolved camera
    and chain, the same camera info and equally many image points give the
    same outcome of [compute_cov], store included. *)
Theorem compute_cov_ignores_pixel_values self1 self2 target_pts h :
  _calc_block self1 = _calc_block self2 → _camera self1 = _camera self2 →
  cam_info (_M_cam self1) = cam_info (_M_cam self2) →
  _M_chain self1 = _M_chain self2 →
  length (image_points (_M_cam self1)) = length (image_points (_M_cam self2)) →
  compute_cov self1 target_pts h = compute_cov self2 target_pts h.
Proof.
  intros Hb Hc Hp Hch Hn. unfold compute_cov, get_residual_length. cbv zeta.
  rewrite Hch, Hn, Hb, Hc.
  apply M_bind_ext. intros q h1. apply M_bind_ext. intros p h2.
  rewrite !M_bind_run, (_compute_expected_agree self1 self2) by done.
  destruct (_compute_expected self2 _ target_pts h2) as [h3 [e0|]]; [|done].
  rewrite !M_bind_run, (jacobian_loop_agree self1 self2) by done.
  reflexivity.
Qed.

End CovMore.

(** ** More on build_blocks and update_config *)

Section BundlerMore.
Context {R : Type}.

Implicit Types (M_robot : RobotMeasurement R) (s : CameraChainSensor R).

Lemma index_getitem_first {A} (key : A → string) (id : string) (l : list A) i a :
  index id (key <$> l) = Ok i → getitem l i = Ok a → first_with key l id a.
Proof.
  unfold index, getitem. destruct (list_find _ _) as [[i' y]|] eqn:Hf; [|discriminate].
  intros [= ->]. destruct (l !! i) as [a'|] eqn:Ha; [|discriminate]. intros [= ->].
  apply list_find_Some in Hf as (Hl & -> & Hfirst).
  rewrite list_lookup_fmap, Ha in Hl. injection Hl as Hl.
  exists i. split_and!; [done|done|]. intros j o Ho Hj.
  apply (Hfirst j (key o)); [|done]. by rewrite list_lookup_fmap, Ho.
Qed.

Lemma build_blocks_loop_first valid_configs M_robot acc sensors :
  build_blocks_loop valid_configs M_robot acc = Ok sensors →
  ∃ new,
    sensors = acc ++ new
    ∧ Forall (λ s,
        first_with camera_id (M_cam M_robot)
          (cfg_camera_id (_config_dict s)) (_M_cam s)
        ∧ first_with chain_id (M_chain M_robot)
            (cfg_chain_id (cfg_chain (_config_dict s))) (_M_chain s)
        ∧ _camera s = None ∧ _calc_block s = None) new.
Proof.
  revert acc. induction valid_configs as [|c rest IH]; intros acc;
    cbn [build_blocks_loop].
  - intros [= <-]. exists []. by rewrite app_nil_r.
  - destruct (_ && _).
    + intros Hrun.
      apply result_bind_Ok in Hrun as (i & Hi & Hrun).
      apply result_bind_Ok in Hrun as (mc & Hmc & Hrun).
      apply result_bind_Ok in Hrun as (j & Hj & Hrun).
      apply result_bind_Ok in Hrun as (mch & Hmch & Hrun).
      cbv zeta in Hrun. apply IH in Hrun as (new & -> & Hnew).
      exists (CameraChainSensor_init c mc mch :: new).
      split; [by rewrite <- app_assoc|]. constructor; [|done]. cbn.
      split_and!; [|  |done|done].
      * by eapply index_getitem_first.
      * by eapply index_getitem_first.
    + apply IH.
Qed.

(** X12: when several observations of a measurement carry the same id,
    every sensor returned by [build_blocks] is bound to the first camera
    observation with its entry's camera id and to the first chain
    observation with its entry's chain id; the sensor is returned without
    camera parameters, which only [update_config] sets. *)
Theorem build_blocks_binds_first valid_configs M_robot sensors s :
  build_blocks valid_configs M_robot = Ok sensors →
  s ∈ sensors →
  first_with camera_id (M_cam M_robot) (cfg_camera_id (_config_dict s)) (_M_cam s)
  ∧ first_with chain_id (M_chain M_robot)
      (cfg_chain_id (cfg_chain (_config_dict s))) (_M_chain s)
  ∧ _camera s = None.
Proof.
  intros Hrun Hs. apply build_blocks_loop_first in Hrun as (new & -> & Hnew).
  rewrite Forall_forall in Hnew. destruct (Hnew s) as (? & ? & ? & _); [done|].
  done.
Qed.

Lemma build_blocks_loop_acc valid_configs M_robot acc :
  build_blocks_loop valid_configs M_robot acc
  = (new ← build_blocks_loop valid_configs M_robot []; Ok (acc ++ new)).
Proof.
  revert acc. induction valid_configs as [|c rest IH]; intros acc;
    cbn [build_blocks_loop].
  - cbn. by rewrite app_nil_r.
  - destruct (_ && _); [|apply IH].
    destruct (index (cfg_camera_id c) _) as [i|]; [|reflexivity].
    cbn [mbind result_bind].
    destruct (getitem (M_cam M_robot) i) as [mc|]; [|reflexivity].
    cbn [mbind result_bind].
    destruct (index (cfg_chain_id (cfg_chain c)) _) as [j|]; [|reflexivity].
    cbn [mbind result_bind].
    destruct (getitem (M_chain M_robot) j) as [mch|]; [|reflexivity].
    cbn [mbind result_bind].
    cbv zeta. rewrite (IH (acc ++ _)), (IH ([] ++ _)).
    destruct (build_blocks_loop rest M_robot []) as [new|]; [|reflexivity].
    cbn. by rewrite <- app_assoc.
Qed.

Lemma build_blocks_loop_app configs1 configs2 M_robot acc :
  build_blocks_loop (configs1 ++ configs2) M_robot acc
  = (mid ← build_blocks_loop configs1 M_robot acc;
     build_blocks_loop configs2 M_robot mid).
Proof.
  revert acc. induction configs1 as [|c rest IH]; intros acc; [done|].
  cbn [app build_blocks_loop].
  destruct (_ && _); [|apply IH].
  destruct (index (cfg_camera_id c) _) as [i|]; [|reflexivity].
  cbn [mbind result_bind].
  destruct (getitem (M_cam M_robot) i) as [mc|]; [|reflexivity].
  cbn [mbind result_bind].
  destruct (index (cfg_chain_id (cfg_chain c)) _) as [j|]; [|reflexivity].
  cbn [mbind result_bind].
  destruct (getitem (M_chain M_robot) j) as [mch|]; [|reflexivity].
  cbn [mbind result_bind].
  cbv zeta. apply IH.
Qed.

(** X13: [build_blocks] works entry by entry: for a catalog that is the
    concatenation of two catalogs it returns the sensors of the first
    followed by the sensors of the second, for the same measurement. *)
Theorem build_blocks_app configs1 configs2 M_robot :
  ∃ sensors1 sensors2,
    build_blocks configs1 M_robot = Ok sensors1
    ∧ build_blocks configs2 M_robot = Ok sensors2
    ∧ build_blocks (configs1 ++ configs2) M_robot = Ok (sensors1 ++ sensors2).
Proof.
  unfold build_blocks.
  destruct (build_blocks_loop_spec configs1 M_robot []) as (s1 & H1 & _); [constructor|].
  destruct (build_blocks_loop_spec configs2 M_robot []) as (s2 & H2 & _); [constructor|].
  exists s1, s2. split_and!; [done..|].
  rewrite build_blocks_loop_app, H1. cbn [mbind result_bind].
  by rewrite build_blocks_loop_acc, H2.
Qed.

End BundlerMore.

Section UpdateConfigMore.
Context {R : Type} `{Scalar R}.

(** X14: [update_config] raises [KeyError] when the robot parameters have
    no rectified camera under the config's camera id; when it returns, the
    camera parameters are the ones registered under that id, and the
    sensor id, the config and the bound observations are the same, so
    [get_measurement] and [get_residual_length] are not affected by a
    parameter update. *)
Theorem update_config_keeps_bound_data (self : CameraChainSensor R)
    (robot_params : RobotParams R) :
  (rectified_cams robot_params !! cfg_camera_id (_config_dict self) = None →
     update_config self robot_params = Err KeyError)
  ∧ (∀ self', update_config self robot_params = Ok self' →
       _camera self'
       = rectified_cams robot_params !! cfg_camera_id (_config_dict self)
       ∧ sensor_id self' = sensor_id self
       ∧ _config_dict self' = _config_dict self
       ∧ _M_cam self' = _M_cam self
       ∧ _M_chain self' = _M_chain self
       ∧ get_measurement self' = get_measurement self
       ∧ get_residual_length self' = get_residual_length self).
Proof.
  unfold update_config. split.
  - by intros ->.
  - intros self' Hrun.
    destruct (rectified_cams robot_params !! _) as [cam|]; [|discriminate].
    cbn [mbind result_bind] in Hrun.
    destruct (resolve_chain robot_params _) as [blk|]; [|discriminate].
    injection Hrun as <-. done.
Qed.

End UpdateConfigMore.

(** ** The definitions at work on the integer instance *)

Local Open Scope Z_scope.

(** One joint at position 1, one target point at (6, 7): the expected
    pixel is (5, 7). *)
Example compute_expected_demo :
  compute_expected (demo_sensor [(5, 7)] 1 [3]) (demo_target [(6, 7)]) [[1]]
  = ([[1]], Ok (Matrix 2 [[5; 7]])).
Proof. reflexivity. Qed.

Example compute_residual_demo :
  compute_residual (demo_sensor [(5, 7); (1, 2)] 1 [3])
    (demo_target [(6, 7); (3, 3)]) [[1]]
  = ([[1]], Ok [0; 0; 1; 1]).
Proof. reflexivity. Qed.

(** A single joint: the Jacobian row is [-1, 0, -1, 0], the variance 3,
    the camera noise (4, 9); the result is Jt' * 3 * Jt + diag(4, 9, 4, 9). *)
Example compute_cov_single_joint_demo :
  compute_cov (demo_sensor [(5, 7); (1, 2)] 1 [3])
    (demo_target [(6, 7); (3, 3)]) [[1]]
  = ([[1]; [1]; [2]],
     Ok (Matrix 4 [[7; 0; 3; 0]; [0; 9; 0; 0]; [3; 0; 7; 0]; [0; 0; 0; 9]])).
Proof. reflexivity. Qed.

(** C2: on a chain with two joints and variances [3, 5] the Jacobian is
    computed (the copies perturbed by the step are in the store), but the
    product with [matrix(diag(cov_angles))], a 1 x 2 row, is rejected by
    numpy: [compute_cov] raises [ValueError] instead of returning the sum
    of the chain-induced and camera-noise covariances. *)
Theorem compute_cov_two_joints_raises :
  compute_cov (demo_sensor [(5, 7)] 2 [3; 5]) (demo_target [(6, 7)]) [[1; 2]]
  = ([[1; 2]; [1; 2]; [2; 2]; [1; 3]], Err ValueError).
Proof. reflexivity. Qed.

Example variance_factor_demo :
  diag (Array1 [3; 5]) = Array2 (Matrix 2 [[3; 0]; [0; 5]])
  ∧ as_matrix (diag (diag (Array1 [3; 5]))) = Matrix 2 [[3; 5]].
Proof. split; reflexivity. Qed.

Lemma compute_residual_no_points_witness :
  get_residual_length (demo_sensor [] 1 [3]) = 0%nat
  ∧ compute_residual (demo_sensor [] 1 [3]) (demo_target []) [[1]]
    = ([[1]], Err AssertionError).
Proof.
  apply (compute_residual_no_points (demo_sensor [] 1 [3]) (demo_target [])
           [[1]] [[1]] (Matrix 2 [])); reflexivity.
Defined.

Lemma compute_residual_exact_fit_witness :
  compute_residual (demo_sensor [(5, 7)] 1 [3]) (demo_target [(6, 7)]) [[1]]
  = ([[1]], Ok (replicate (get_residual_length (demo_sensor [(5, 7)] 1 [3])) 0)).
Proof.
  exact (compute_residual_exact_fit (demo_sensor [(5, 7)] 1 [3])
           (demo_target [(6, 7)]) [[1]] [[1]] (Matrix 2 [[5; 7]])
           Z.sub_diag eq_refl eq_refl eq_refl).
Defined.

Lemma compute_residual_column_checks_witness :
  (ncols (get_measurement (demo_sensor [(5, 7)] 1 [3])) ≠ 2%nat
   ∨ ncols (Matrix 2 [[5; 7]]) ≠ 2%nat →
     compute_residual (demo_sensor [(5, 7)] 1 [3]) (demo_target [(6, 7)]) [[1]]
     = ([[1]], Err AssertionError))
  ∧ (ncols (get_measurement (demo_sensor [(5, 7)] 1 [3])) = 2%nat
     ∧ ncols (Matrix 2 [[5; 7]]) = 2%nat →
     residual_asserts (get_measurement (demo_sensor [(5, 7)] 1 [3]))
       (Matrix 2 [[5; 7]]) = Ok ()
     ∧ compute_residual (demo_sensor [(5, 7)] 1 [3]) (demo_target [(6, 7)]) [[1]]
       = ([[1]],
          d ← ewise2 rsub (Matrix 2 [[5; 7]])
                (get_measurement (demo_sensor [(5, 7)] 1 [3]));
          Ok (reshape_flat d))
     ∧ compute_residual (demo_sensor [(5, 7)] 1 [3]) (demo_target [(6, 7)]) [[1]]
       ≠ ([[1]], Err AssertionError)).
Proof.
  apply (compute_residual_column_checks (demo_sensor [(5, 7)] 1 [3])
           (demo_target [(6, 7)]) [[1]] [[1]] (Matrix 2 [[5; 7]])).
  reflexivity.
Defined.

(** Three observed points against two target points: the assertions pass
    and the subtraction raises. *)
Lemma residual_asserts_ignore_rows_witness :
  residual_asserts (get_measurement (demo_sensor [(5, 7); (1, 2); (0, 0)] 1 [3]))
    (Matrix 2 [[5; 7]; [2; 3]]) = Ok ()
  ∧ bool_decide (nrows (get_measurement (demo_sensor [(5, 7); (1, 2); (0, 0)] 1 [3]))
                 = nrows (get_measurement (demo_sensor [(5, 7); (1, 2); (0, 0)] 1 [3])))
    = true
  ∧ compute_residual (demo_sensor [(5, 7); (1, 2); (0, 0)] 1 [3])
      (demo_target [(6, 7); (3, 3)]) [[1]]
    = ([[1]],
       d ← ewise2 rsub (Matrix 2 [[5; 7]; [2; 3]])
             (get_measurement (demo_sensor [(5, 7); (1, 2); (0, 0)] 1 [3]));
       Ok (reshape_flat d)).
Proof.
  apply (residual_asserts_ignore_rows
           (demo_sensor [(5, 7); (1, 2); (0, 0)] 1 [3])
           (demo_target [(6, 7); (3, 3)]) [[1]] [[1]] (Matrix 2 [[5; 7]; [2; 3]]));
    [reflexivity | reflexivity | reflexivity | vm_compute; lia].
Defined.

Example residual_row_mismatch_demo :
  compute_residual (demo_sensor [(5, 7); (1, 2); (0, 0)] 1 [3])
    (demo_target [(6, 7); (3, 3)]) [[1]]
  = ([[1]], Err ValueError).
Proof. reflexivity. Qed.

Lemma build_sparsity_dict_spec_witness :
  (dh_M (demo_block 3 [1; 1; 1]) ≠ length [1; 2; 3] →
     build_sparsity_dict (demo_sensor [(5, 7)] 3 [1; 1; 1]) [[1; 2; 3]]
     = ([[1; 2; 3]], Err AssertionError))
  ∧ (dh_M (demo_block 3 [1; 1; 1]) = length [1; 2; 3] →
     ∃ sp,
       build_sparsity_dict (demo_sensor [(5, 7)] 3 [1; 1; 1]) [[1; 2; 3]]
       = ([[1; 2; 3]], Ok sp)
       ∧ (∀ name,
            sp_transforms sp !! name
            = if decide (name ∈ ["mount"] ++ []) then Some [1; 1; 1; 1; 1; 1] else None)
       ∧ sp_dh_chains sp = {[ "armL" := replicate 3 [1; 1; 1; 1] ]}
       ∧ length (replicate 3 [1; 1; 1; 1]) = 3%nat
       ∧ sp_rectified_cameras sp = {[ "cam1" := {[ "baseline_shift" := 1 ]} ]}).
Proof.
  apply (build_sparsity_dict_spec (demo_sensor [(5, 7)] 3 [1; 1; 1]) [[1; 2; 3]]
           (demo_block 3 [1; 1; 1]) [1; 2; 3]); reflexivity.
Defined.

Lemma compute_cov_keeps_positions_witness :
  (compute_cov (demo_sensor [(5, 7)] 1 [3]) (demo_target [(6, 7)]) [[1]]).1 !! 0%nat
  = Some [1]
  ∧ take (length [[1]])
      (compute_cov (demo_sensor [(5, 7)] 1 [3]) (demo_target [(6, 7)]) [[1]]).1
    = [[1]].
Proof.
  apply (compute_cov_keeps_positions (demo_sensor [(5, 7)] 1 [3])
           (demo_target [(6, 7)]) [[1]] [1]).
  reflexivity.
Defined.

Lemma compute_cov_zero_joints_raises_witness :
  ∃ e, (compute_cov (demo_sensor [(5, 7)] 0 []) (demo_target [(6, 7)]) [[]]).2
       = Err e.
Proof.
  apply (compute_cov_zero_joints_raises (demo_sensor [(5, 7)] 0 [])
           (demo_target [(6, 7)]) [[]]).
  reflexivity.
Defined.

Example compute_cov_zero_joints_demo :
  compute_cov (demo_sensor [(5, 7)] 0 []) (demo_target [(6, 7)]) [[]]
  = ([[]; []], Err ValueError).
Proof. reflexivity. Qed.

Lemma compute_cov_symmetric_witness :
  entry (Matrix 4 [[7; 0; 3; 0]; [0; 9; 0; 0]; [3; 0; 7; 0]; [0; 0; 0; 9]]) 0 2
  = entry (Matrix 4 [[7; 0; 3; 0]; [0; 9; 0; 0]; [3; 0; 7; 0]; [0; 0; 0; 9]]) 2 0.
Proof.
  exact (compute_cov_symmetric (demo_sensor [(5, 7); (1, 2)] 1 [3])
           (demo_target [(6, 7); (3, 3)]) [[1]] [[1]; [1]; [2]]
           (Matrix 4 [[7; 0; 3; 0]; [0; 9; 0; 0]; [3; 0; 7; 0]; [0; 0; 0; 9]])
           Z.add_0_l Z.mul_comm Z.mul_assoc eq_refl 0%nat 2%nat).
Defined.

(** The catalog of two entries against a measurement with only [cam1] and
    [armL]: one sensor, for [cam1]. *)
Example build_blocks_demo :
  sensor_id <$> default []
    (match build_blocks
             [ demo_config;
               {| cfg_camera_id := "cam2";
                  cfg_chain := {| cfg_chain_id := "armR";
                                  cfg_before_chain := [];
                                  cfg_after_chain := [] |} |} ]
             {| M_cam := [ _M_cam (demo_sensor [(5, 7)] 1 [3]) ];
                M_chain := [ _M_chain (demo_sensor [(5, 7)] 1 [3]) ] |}
     with Ok l => Some l | Err _ => None end)
  = ["cam1"].
Proof. reflexivity. Qed.

(** ** Further runs on the integer instance *)

Lemma compute_residual_point_major_witness :
  ∃ r,
    compute_residual (demo_sensor [(5, 7); (1, 2)] 1 [3])
      (demo_target [(6, 7); (3, 3)]) [[1]] = ([[1]], Ok r)
    ∧ length r = get_residual_length (demo_sensor [(5, 7); (1, 2)] 1 [3])
    ∧ ∀ i pt hx hy,
        image_points (_M_cam (demo_sensor [(5, 7); (1, 2)] 1 [3])) !! i = Some pt →
        rows (Matrix 2 [[5; 7]; [2; 3]]) !! i = Some [hx; hy] →
        r !! (2 * i)%nat = Some (rsub hx (pt_x pt))
        ∧ r !! (2 * i + 1)%nat = Some (rsub hy (pt_y pt)).
Proof.
  apply (compute_residual_point_major (demo_sensor [(5, 7); (1, 2)] 1 [3])
           (demo_target [(6, 7); (3, 3)]) [[1]] [[1]] (Matrix 2 [[5; 7]; [2; 3]]));
    [discriminate | reflexivity | repeat constructor | reflexivity | reflexivity].
Defined.

Lemma compute_residual_row_mismatch_raises_witness :
  compute_residual (demo_sensor [(5, 7); (1, 2); (0, 0)] 1 [3])
    (demo_target [(6, 7); (3, 3)]) [[1]]
  = ([[1]], Err ValueError).
Proof.
  apply (compute_residual_row_mismatch_raises
           (demo_sensor [(5, 7); (1, 2); (0, 0)] 1 [3])
           (demo_target [(6, 7); (3, 3)]) [[1]] [[1]] (Matrix 2 [[5; 7]; [2; 3]]));
    [reflexivity | reflexivity | reflexivity
     | vm_compute; lia | vm_compute; lia | vm_compute; lia].
Defined.

Lemma compute_residual_single_point_broadcasts_witness :
  get_residual_length (demo_sensor [(5, 7)] 1 [3]) = 2%nat
  ∧ compute_residual (demo_sensor [(5, 7)] 1 [3])
      (demo_target [(6, 7); (3, 3)]) [[1]]
    = ([[1]],
       Ok (concat ((λ row, zip_with rsub row [5; 7])
                     <$> rows (Matrix 2 [[5; 7]; [2; 3]]))))
  ∧ length (concat ((λ row, zip_with rsub row [5; 7])
                      <$> rows (Matrix 2 [[5; 7]; [2; 3]])))
    = (2 * nrows (Matrix 2 [[5; 7]; [2; 3]]))%nat.
Proof.
  refine (compute_residual_single_point_broadcasts (demo_sensor [(5, 7)] 1 [3])
            (demo_target [(6, 7); (3, 3)]) [[1]] [[1]] (Matrix 2 [[5; 7]; [2; 3]])
            {| pt_x := 5; pt_y := 7 |} eq_refl eq_refl _ eq_refl).
  repeat constructor.
Defined.

Example compute_residual_single_point_demo :
  compute_residual (demo_sensor [(5, 7)] 1 [3])
    (demo_target [(6, 7); (3, 3)]) [[1]]
  = ([[1]], Ok [0; 0; -3; -4]).
Proof. reflexivity. Qed.

Lemma compute_expected_transposes_projection_witness :
  ∃ e,
    compute_expected (demo_sensor [(5, 7)] 1 [3]) (demo_target [(6, 7); (3, 3)]) [[1]]
    = ([[1]], Ok e)
    ∧ nrows e = ncols (Matrix 2 [[5; 2]; [7; 3]])
    ∧ ncols e = nrows (Matrix 2 [[5; 2]; [7; 3]])
    ∧ wf e
    ∧ ∀ i j, entry e i j = entry (Matrix 2 [[5; 2]; [7; 3]]) j i.
Proof.
  apply (compute_expected_transposes_projection (demo_sensor [(5, 7)] 1 [3])
           (demo_target [(6, 7); (3, 3)]) [[1]]
           (demo_block 1 [3]) (demo_camera 4 9) [1] (slide 1) (slide (-1))
           (Matrix 2 [[5; 2]; [7; 3]; [0; 0]; [1; 1]])
           (Matrix 2 [[5; 2]; [7; 3]]));
    [reflexivity | reflexivity | reflexivity | reflexivity | reflexivity
     | reflexivity | reflexivity | repeat constructor].
Defined.

(** Target points given with three rows instead of four. *)
Lemma compute_expected_target_shape_mismatch_witness :
  compute_expected (demo_sensor [(5, 7)] 1 [3]) (Matrix 1 [[6]; [7]; [0]]) [[1]]
  = ([[1]], Err ValueError).
Proof.
  apply (compute_expected_target_shape_mismatch (demo_sensor [(5, 7)] 1 [3])
           (Matrix 1 [[6]; [7]; [0]]) [[1]] (demo_block 1 [3]) [1]
           (slide 1) (slide (-1)));
    [reflexivity | reflexivity | reflexivity | reflexivity | vm_compute; lia].
Defined.

(** Two joints at (1, 2): the baseline pixel is (3, 7); moving either
    joint by one unit moves the pixel by (-1, 0). *)
Lemma jacobian_loop_forward_differences_witness :
  nrows (Matrix 2 [[-1; 0]; [-1; 0]]) = length [1; 2]
  ∧ ncols (Matrix 2 [[-1; 0]; [-1; 0]]) = 2%nat
  ∧ wf (Matrix 2 [[-1; 0]; [-1; 0]])
  ∧ [[1; 2]; [2; 2]; [1; 3]] !! 0%nat = Some [1; 2]
  ∧ length [[1; 2]; [2; 2]; [1; 3]] = (length [[1; 2]] + length [1; 2])%nat
  ∧ ∀ i x, [1; 2] !! i = Some x →
      ∃ e row,
        expected_pixels (demo_sensor [(5, 7)] 2 [3; 5]) (<[i := radd x 1]> [1; 2])
          (demo_target [(6, 7)]) = Ok e
        ∧ difference_row 1 2 (reshape_flat e) [3; 7] = Ok row
        ∧ rows (Matrix 2 [[-1; 0]; [-1; 0]]) !! i = Some row
        ∧ [[1; 2]; [2; 2]; [1; 3]] !! (length [[1; 2]] + i)%nat
          = Some (<[i := radd x 1]> [1; 2]).
Proof.
  exact (jacobian_loop_forward_differences (demo_sensor [(5, 7)] 2 [3; 5])
           (demo_target [(6, 7)]) 1 [3; 7] [1; 2] 2 [[1; 2]]
           [[1; 2]; [2; 2]; [1; 3]] (Matrix 2 [[-1; 0]; [-1; 0]])
           eq_refl eq_refl).
Defined.

Lemma compute_cov_requires_single_joint_witness :
  ∃ e, (compute_cov (demo_sensor [(5, 7)] 2 [3; 5]) (demo_target [(6, 7)])
          [[1; 2]]).2 = Err e.
Proof.
  apply (compute_cov_requires_single_joint (demo_sensor [(5, 7)] 2 [3; 5])
           (demo_target [(6, 7)]) [[1; 2]] [1; 2] (demo_block 2 [3; 5]));
    [reflexivity | reflexivity | left; vm_compute; lia].
Defined.

Lemma compute_cov_single_joint_witness :
  ∃ x d blk cam e0 e1 g,
    [[1]] !! position (chain_state (_M_chain (demo_sensor [(5, 7); (1, 2)] 1 [3])))
    = Some [x]
    ∧ _calc_block (demo_sensor [(5, 7); (1, 2)] 1 [3]) = Some blk
    ∧ cov_joint_angles blk = [d]
    ∧ _camera (demo_sensor [(5, 7); (1, 2)] 1 [3]) = Some cam
    ∧ expected_pixels (demo_sensor [(5, 7); (1, 2)] 1 [3]) [x]
        (demo_target [(6, 7); (3, 3)]) = Ok e0
    ∧ expected_pixels (demo_sensor [(5, 7); (1, 2)] 1 [3]) [radd x lit_1e_8]
        (demo_target [(6, 7); (3, 3)]) = Ok e1
    ∧ difference_row lit_1e_8
        (get_residual_length (demo_sensor [(5, 7); (1, 2)] 1 [3]))
        (reshape_flat e1) (reshape_flat e0) = Ok g
    ∧ length g = get_residual_length (demo_sensor [(5, 7); (1, 2)] 1 [3])
    ∧ ∀ i j gi gj,
        g !! i = Some gi → g !! j = Some gj →
        entry (Matrix 4 [[7; 0; 3; 0]; [0; 9; 0; 0]; [3; 0; 7; 0]; [0; 0; 0; 9]]) i j
        = Some (radd (dot [dot [gi] [d]] [gj])
                     (cam_noise (cov_u cam) (cov_v cam) i j)).
Proof.
  exact (compute_cov_single_joint (demo_sensor [(5, 7); (1, 2)] 1 [3])
           (demo_target [(6, 7); (3, 3)]) [[1]] [[1]; [1]; [2]]
           (Matrix 4 [[7; 0; 3; 0]; [0; 9; 0; 0]; [3; 0; 7; 0]; [0; 0; 0; 9]])
           eq_refl).
Defined.

(** One observed point against two target points. *)
Lemma compute_cov_point_count_mismatch_witness :
  compute_cov (demo_sensor [(5, 7)] 1 [3]) (demo_target [(6, 7); (3, 3)]) [[1]]
  = ([[1]] ++ [[1]; <[0%nat := radd 1 lit_1e_8]> [1]], Err ValueError).
Proof.
  apply (compute_cov_point_count_mismatch (demo_sensor [(5, 7)] 1 [3])
           (demo_target [(6, 7); (3, 3)]) [[1]] [1] 1
           (Matrix 2 [[5; 7]; [2; 3]]) (Matrix 2 [[4; 7]; [1; 3]]));
    [reflexivity | reflexivity | reflexivity | reflexivity | reflexivity
     | vm_compute; lia | vm_compute; lia].
Defined.

Lemma compute_cov_shape_witness :
  nrows (Matrix 4 [[7; 0; 3; 0]; [0; 9; 0; 0]; [3; 0; 7; 0]; [0; 0; 0; 9]])
  = get_residual_length (demo_sensor [(5, 7); (1, 2)] 1 [3])
  ∧ ncols (Matrix 4 [[7; 0; 3; 0]; [0; 9; 0; 0]; [3; 0; 7; 0]; [0; 0; 0; 9]])
    = get_residual_length (demo_sensor [(5, 7); (1, 2)] 1 [3])
  ∧ wf (Matrix 4 [[7; 0; 3; 0]; [0; 9; 0; 0]; [3; 0; 7; 0]; [0; 0; 0; 9]]).
Proof.
  exact (compute_cov_shape (demo_sensor [(5, 7); (1, 2)] 1 [3])
           (demo_target [(6, 7); (3, 3)]) [[1]] [[1]; [1]; [2]]
           (Matrix 4 [[7; 0; 3; 0]; [0; 9; 0; 0]; [3; 0; 7; 0]; [0; 0; 0; 9]])
           eq_refl).
Defined.

Lemma compute_cov_ignores_pixel_values_witness :
  compute_cov (demo_sensor [(5, 7); (1, 2)] 1 [3]) (demo_target [(6, 7); (3, 3)]) [[1]]
  = compute_cov (demo_sensor [(0, 0); (9, 9)] 1 [3]) (demo_target [(6, 7); (3, 3)]) [[1]].
Proof.
  exact (compute_cov_ignores_pixel_values (demo_sensor [(5, 7); (1, 2)] 1 [3])
           (demo_sensor [(0, 0); (9, 9)] 1 [3]) (demo_target [(6, 7); (3, 3)]) [[1]]
           eq_refl eq_refl eq_refl eq_refl eq_refl).
Defined.

Lemma build_blocks_binds_first_witness :
  first_with camera_id (M_cam demo_measurement) "cam1"
    (_M_cam (demo_sensor [(5, 7)] 1 [3]))
  ∧ first_with chain_id (M_chain demo_measurement) "armL"
      (_M_chain (demo_sensor [(5, 7)] 1 [3]))
  ∧ _camera (CameraChainSensor_init demo_config
               (_M_cam (demo_sensor [(5, 7)] 1 [3]))
               (_M_chain (demo_sensor [(5, 7)] 1 [3]))) = None.
Proof.
  apply (build_blocks_binds_first [demo_config] demo_measurement
           [CameraChainSensor_init demo_config
              (_M_cam (demo_sensor [(5, 7)] 1 [3]))
              (_M_chain (demo_sensor [(5, 7)] 1 [3]))]
           (CameraChainSensor_init demo_config
              (_M_cam (demo_sensor [(5, 7)] 1 [3]))
              (_M_chain (demo_sensor [(5, 7)] 1 [3]))));
    [reflexivity | apply list_elem_of_singleton; reflexivity].
Defined.
